(** * form-builder: the immutable form engine of [src/index.ts]

    A shallow embedding of the form engine (the [Form] / [Field] values of
    [src/types.ts], the Ramda lenses that address a field by name, the
    validation pass and the visibility pass), followed by the properties
    proved about it.

    Conventions of the embedding.
    - A JavaScript object is a record whose attributes are all optional:
      [None] is an absent key (reading it gives [undefined]).
    - [undefined | T] is [option T].
    - An array is a [list]; an index is a [Z], because [R.findIndex]
      answers [-1] when nothing matches.
    - The object built by [getValues] is a [gmap] from property key to the
      stored value (which may itself be [undefined]).
    - Rules are stored closures; they are Rocq functions, hence pure. *)

From Stdlib Require Import ZArith Ascii String List Bool Lia.
From stdpp Require Import base option list strings gmap.

Local Open Scope string_scope.
Local Open Scope Z_scope.
Local Open Scope list_scope.

(** ** Data model ([src/types.ts]) *)

Inductive FieldType := text | select | boolean.

(** The value of a field: a string (text, select) or a boolean. *)
Inductive Value :=
  | VString (s : string)
  | VBoolean (b : bool).

#[global] Instance FieldType_eq_dec : EqDecision FieldType.
Proof. solve_decision. Defined.

#[global] Instance Value_eq_dec : EqDecision Value.
Proof. solve_decision. Defined.

(** [(value: any): string | undefined] *)
Definition ValidationRule : Type := option Value -> option string.

(** [(values: Record<string, string | boolean>): boolean] *)
Definition ConditionalRule : Type := gmap string (option Value) -> bool.

Record Field := mkField {
  type : option FieldType;
  name : option string;
  value : option Value;
  options : option (list string);
  defaultVisibility : option bool;
  validationRules : option (list ValidationRule);
  conditionalRules : option (list ConditionalRule);
  errors : option (list (option string));
  visible : option bool
}.

(** [Form] has a [name] too; the projection is called [formName] because
    [name] is taken by [Field]. *)
Record Form := mkForm {
  formName : string;
  fields : list Field
}.

(** The object literal [{}]. *)
Definition emptyObject : Field :=
  mkField None None None None None None None None None.

(** Copies of an object with one key written, as [{...obj, key: v}] or
    [R.assoc(key, v, obj)] produce them. *)
Definition with_value (v : option Value) (o : Field) : Field :=
  mkField (type o) (name o) v (options o) (defaultVisibility o)
          (validationRules o) (conditionalRules o) (errors o) (visible o).

Definition with_options (v : option (list string)) (o : Field) : Field :=
  mkField (type o) (name o) (value o) v (defaultVisibility o)
          (validationRules o) (conditionalRules o) (errors o) (visible o).

Definition with_defaultVisibility (v : option bool) (o : Field) : Field :=
  mkField (type o) (name o) (value o) (options o) v
          (validationRules o) (conditionalRules o) (errors o) (visible o).

Definition with_validationRules (v : option (list ValidationRule)) (o : Field) : Field :=
  mkField (type o) (name o) (value o) (options o) (defaultVisibility o)
          v (conditionalRules o) (errors o) (visible o).

Definition with_conditionalRules (v : option (list ConditionalRule)) (o : Field) : Field :=
  mkField (type o) (name o) (value o) (options o) (defaultVisibility o)
          (validationRules o) v (errors o) (visible o).

Definition with_errors (v : option (list (option string))) (o : Field) : Field :=
  mkField (type o) (name o) (value o) (options o) (defaultVisibility o)
          (validationRules o) (conditionalRules o) v (visible o).

Definition with_visible (v : option bool) (o : Field) : Field :=
  mkField (type o) (name o) (value o) (options o) (defaultVisibility o)
          (validationRules o) (conditionalRules o) (errors o) v.

(** A property of a field object: how to read the key and how to write it. *)
Record Key (X : Type) := mkKey {
  readKey : Field -> option X;
  writeKey : option X -> Field -> Field
}.
Arguments mkKey {X} _ _.
Arguments readKey {X} _ _.
Arguments writeKey {X} _ _ _.

Definition key_value := mkKey value with_value.
Definition key_options := mkKey options with_options.
Definition key_defaultVisibility := mkKey defaultVisibility with_defaultVisibility.
Definition key_validationRules := mkKey validationRules with_validationRules.
Definition key_conditionalRules := mkKey conditionalRules with_conditionalRules.

(** ** The Ramda functions the engine calls

    Ramda is the library imported on line 1 of [src/index.ts]; these are
    its functions as the library implements them (0.28, the last release
    with the argument order [propEq(name, value)] that the code uses). *)
Module R.

(** A lens is a getter and a setter. The setter may be given a value of
    another type than the getter returns (the getter of [field] answers
    [undefined] when nothing matches, its setter is given an object). *)
Record Lens (S T A B : Type) := lens {
  getter : S -> A;
  setter : B -> S -> T
}.
Arguments lens {S T A B} _ _.
Arguments getter {S T A B} _ _.
Arguments setter {S T A B} _ _ _.

Section Lenses.
Context {S T A B C D : Type}.

Definition view (l : Lens S T A B) (s : S) : A := getter l s.

Definition over (l : Lens S T A B) (f : A -> B) (s : S) : T :=
  setter l (f (getter l s)) s.

(** [set(lens, v, x) = over(lens, always(v), x)] *)
Definition set (l : Lens S T A B) (v : B) (s : S) : T :=
  over l (fun _ => v) s.

(** Composition of lenses, outermost first. *)
Definition compose (l1 : Lens S T A B) (l2 : Lens A B C D) : Lens S T C D :=
  lens (fun s => getter l2 (getter l1 s))
       (fun d s => setter l1 (setter l2 d (getter l1 s)) s).
End Lenses.

(** [prop(k, obj)]: [undefined] when [obj] is [undefined]. *)
Definition prop {X} (k : Key X) (obj : option Field) : option X :=
  match obj with
  | Some o => readKey k o
  | None => None
  end.

(** [assoc(k, v, obj)]: a shallow copy of [obj] with [k] written; the
    copy loop [for (p in obj)] copies nothing when [obj] is [undefined],
    so the result is then [{k: v}]. *)
Definition assoc {X} (k : Key X) (v : X) (obj : option Field) : Field :=
  writeKey k (Some v) (match obj with Some o => o | None => emptyObject end).

(** [lensProp(k) = lens(prop(k), assoc(k))] *)
Definition lensProp {X} (k : Key X) : Lens (option Field) Field (option X) X :=
  lens (prop k) (assoc k).

(** [propEq("name", v)]: the object's [name] equals [v]. *)
Definition propEq_name (v : string) (obj : Field) : bool :=
  bool_decide (name obj = Some v).

(** [find(pred, list)]: the first element satisfying [pred], else
    [undefined]. *)
Fixpoint find {A} (pred : A -> bool) (arr : list A) : option A :=
  match arr with
  | [] => None
  | x :: rest => if pred x then Some x else find pred rest
  end.

(** [findIndex(pred, list)]: the index of the first element satisfying
    [pred], else [-1]. *)
Fixpoint findIndex_from {A} (pred : A -> bool) (idx : Z) (arr : list A) : Z :=
  match arr with
  | [] => -1
  | x :: rest => if pred x then idx else findIndex_from pred (idx + 1) rest
  end.

Definition findIndex {A} (pred : A -> bool) (arr : list A) : Z :=
  findIndex_from pred 0 arr.

Definition length {A} (arr : list A) : Z := Z.of_nat (List.length arr).

(** [update(idx, x, list) = adjust(idx, always(x), list)], and [adjust]
    is
<<
    var len = list.length;
    if (idx >= len || idx < -len) { return list; }
    var _idx = (len + idx) % len;
    var _list = _concat(list);
    _list[_idx] = fn(list[_idx]);
    return _list;
>>
    An index outside the array leaves the array as it is. *)
Definition update {A} (idx : Z) (x : A) (arr : list A) : list A :=
  let len := length arr in
  if (idx >=? len) || (idx <? - len) then arr
  else <[ Z.to_nat ((len + idx) mod len) := x ]> arr.

(** [append(el, list) = _concat(list, [el])], where [_concat] reads an
    [undefined] first argument as [[]]. *)
Definition append {A} (el : A) (arr : option (list A)) : list A :=
  match arr with
  | Some l => l ++ [el]
  | None => [el]
  end.

End R.

(** ** The engine ([src/index.ts]) *)

Definition formNameLens : R.Lens Form Form string string :=
  R.lens formName (fun v form => mkForm v (fields form)).

Definition fieldsLens : R.Lens Form Form (list Field) (list Field) :=
  R.lens fields (fun v form => mkForm (formName form) v).

(** A lens focused on a specific field. *)
Definition field (fieldName : string)
  : R.Lens (list Field) (list Field) (option Field) Field :=
  R.lens
    (R.find (R.propEq_name fieldName))
    (fun val arr =>
       let idx := R.findIndex (R.propEq_name fieldName) arr in
       R.update (if idx >? -1 then idx else R.length arr) val arr).

Definition newForm : Form := mkForm "" [].

Definition setName (name : string) (form : Form) : Form :=
  R.set formNameLens name form.

Definition addField (type : FieldType) (name : string) (form : Form) : Form :=
  R.over fieldsLens
    (fun fs => R.append (mkField (Some type) (Some name) None None None None None None None)
                        (Some fs))
    form.

Definition getValue (fieldName : string) (form : Form) : option Value :=
  let lens := R.compose fieldsLens (R.compose (field fieldName) (R.lensProp key_value)) in
  R.view lens form.

Definition setValue (fieldName : string) (value : Value) (form : Form) : Form :=
  let lens := R.compose fieldsLens (R.compose (field fieldName) (R.lensProp key_value)) in
  R.set lens value form.

Definition setFieldOptions (fieldName : string) (options : list string) (form : Form) : Form :=
  let lens := R.compose fieldsLens (R.compose (field fieldName) (R.lensProp key_options)) in
  R.set lens options form.

Definition addValidationRule (fieldName : string) (rule : ValidationRule) (form : Form) : Form :=
  let lens :=
    R.compose fieldsLens (R.compose (field fieldName) (R.lensProp key_validationRules)) in
  R.over lens (R.append rule) form.

Definition addConditionalRule (fieldName : string) (rule : ConditionalRule) (form : Form) : Form :=
  let lens :=
    R.compose fieldsLens (R.compose (field fieldName) (R.lensProp key_conditionalRules)) in
  R.over lens (R.append rule) form.

Definition setDefaultVisibility (fieldName : string) (visibility : bool) (form : Form) : Form :=
  let lens :=
    R.compose fieldsLens (R.compose (field fieldName) (R.lensProp key_defaultVisibility)) in
  R.set lens visibility form.

(** [Boolean(x)] for [x : string | undefined]: [undefined] and the empty
    string are falsy. *)
Definition Boolean (x : option string) : bool :=
  match x with
  | Some s => negb (String.eqb s "")
  | None => false
  end.

Definition validate (form : Form) : Form :=
  let fields :=
    map (fun field =>
           let errors :=
             List.filter Boolean
               (map (fun rule : ValidationRule => rule (value field))
                    (match validationRules field with Some rs => rs | None => [] end)) in
           with_errors (Some errors) field)
        (fields form) in
  mkForm (formName form) fields.

(** The key a computed property [[cur.name]] writes: the name, or the
    string ["undefined"] for an object without one. *)
Definition propertyKey (n : option string) : string :=
  match n with
  | Some s => s
  | None => "undefined"
  end.

Definition getValues (form : Form) : gmap string (option Value) :=
  fold_left (fun prev cur => <[ propertyKey (name cur) := value cur ]> prev)
            (fields form) ∅.

Definition checkVisibility (form : Form) : Form :=
  let values := getValues form in
  let fields :=
    map (fun field =>
           let visible :=
             match conditionalRules field with
             | Some rules => existsb (fun rule : ConditionalRule => rule values) rules
             | None => true
             end in
           with_visible (Some visible) field)
        (fields form) in
  mkForm (formName form) fields.

(** ** Regular expressions, as far as [EMAIL_REGEX] needs them

    The pattern uses character classes, concatenation, [+] and [{2,}],
    between [^] and [$], with the flag [i]. Such a pattern has no
    back-reference and no look-around, so [RegExp.prototype.test] answers
    whether the whole string belongs to the pattern's language; the matcher
    below decides that by derivatives. A string is its sequence of code
    units; every character the pattern names is ASCII. *)

Inductive ClassAtom :=
  | ClassChar (c : ascii)
  | ClassRange (lo hi : ascii).

Inductive RegExp :=
  | Void
  | Eps
  | Chars (cls : list ClassAtom)
  | Seq (r1 r2 : RegExp)
  | Alt (r1 r2 : RegExp)
  | Star (r : RegExp).

(** [r+] *)
Definition Plus (r : RegExp) : RegExp := Seq r (Star r).

(** [r{n,}] *)
Fixpoint AtLeast (n : nat) (r : RegExp) : RegExp :=
  match n with
  | O => Star r
  | S n' => Seq r (AtLeast n' r)
  end.

(** A pattern [/^body$/] with or without the flag [i]. *)
Record Pattern := mkPattern {
  body : RegExp;
  ignoreCase : bool
}.

(** Upper-casing of a code unit. Outside ASCII the result is never an ASCII
    code unit (the rule of [Canonicalize] without the flag [u]), and the
    patterns here name ASCII characters only, so such a code unit is left
    as it is. *)
Definition toUpperCase (ch : ascii) : ascii :=
  let n := nat_of_ascii ch in
  if (97 <=? n)%nat && (n <=? 122)%nat then ascii_of_nat (n - 32) else ch.

(** [Canonicalize(ch)] of the ECMAScript pattern semantics. *)
Definition Canonicalize (ic : bool) (ch : ascii) : ascii :=
  if ic then toUpperCase ch else ch.

(** The characters an atom of a class stands for. *)
Definition atomMembers (a : ClassAtom) : list ascii :=
  match a with
  | ClassChar c => [c]
  | ClassRange lo hi =>
      map ascii_of_nat (seq (nat_of_ascii lo) (nat_of_ascii hi + 1 - nat_of_ascii lo))
  end.

(** A class matches [ch] when one of its members canonicalizes to the
    canonical form of [ch]. *)
Definition classMatches (ic : bool) (cls : list ClassAtom) (ch : ascii) : bool :=
  existsb (fun a => Ascii.eqb (Canonicalize ic a) (Canonicalize ic ch))
          (concat (map atomMembers cls)).

Fixpoint nullable (r : RegExp) : bool :=
  match r with
  | Void => false
  | Eps => true
  | Chars _ => false
  | Seq r1 r2 => nullable r1 && nullable r2
  | Alt r1 r2 => nullable r1 || nullable r2
  | Star _ => true
  end.

Fixpoint deriv (ic : bool) (ch : ascii) (r : RegExp) : RegExp :=
  match r with
  | Void => Void
  | Eps => Void
  | Chars cls => if classMatches ic cls ch then Eps else Void
  | Seq r1 r2 =>
      if nullable r1
      then Alt (Seq (deriv ic ch r1) r2) (deriv ic ch r2)
      else Seq (deriv ic ch r1) r2
  | Alt r1 r2 => Alt (deriv ic ch r1) (deriv ic ch r2)
  | Star r1 => Seq (deriv ic ch r1) (Star r1)
  end.

Fixpoint matches (ic : bool) (r : RegExp) (s : string) : bool :=
  match s with
  | EmptyString => nullable r
  | String ch rest => matches ic (deriv ic ch r) rest
  end.

(** [pattern.test(s)] for a string [s]. *)
Definition test (p : Pattern) (s : string) : bool :=
  matches (ignoreCase p) (body p) s.

(** [ToString(value)], which [test] applies to its argument. *)
Definition ToString (v : option Value) : string :=
  match v with
  | None => "undefined"
  | Some (VString s) => s
  | Some (VBoolean true) => "true"
  | Some (VBoolean false) => "false"
  end.

(** [[A-Z0-9._%+-]] *)
Definition class_local : list ClassAtom :=
  [ClassRange "A" "Z"; ClassRange "0" "9"; ClassChar "."; ClassChar "_";
   ClassChar "%"; ClassChar "+"; ClassChar "-"]%char.

(** [[A-Z0-9.-]] *)
Definition class_domain : list ClassAtom :=
  [ClassRange "A" "Z"; ClassRange "0" "9"; ClassChar "."; ClassChar "-"]%char.

(** [[A-Z]] *)
Definition class_tld : list ClassAtom := [ClassRange "A" "Z"]%char.

(** [/^[A-Z0-9._%+-]+@[A-Z0-9.-]+\.[A-Z]{2,}$/i] *)
Definition EMAIL_REGEX : Pattern :=
  mkPattern
    (Seq (Plus (Chars class_local))
      (Seq (Chars [ClassChar "@"%char])
        (Seq (Plus (Chars class_domain))
          (Seq (Chars [ClassChar "."%char])
               (AtLeast 2 (Chars class_tld))))))
    true.

Definition isEmail (value : option Value) : option string :=
  if test EMAIL_REGEX (ToString value) then None else Some "Not a valid email".

(** ** The pattern as the specification writes it

    [^[A-Za-z0-9._%+-]+@[A-Za-z0-9.-]+\.[A-Za-z]{2,}$], matched
    case-insensitively. *)

Definition spec_class_local : list ClassAtom :=
  [ClassRange "A" "Z"; ClassRange "a" "z"; ClassRange "0" "9"; ClassChar ".";
   ClassChar "_"; ClassChar "%"; ClassChar "+"; ClassChar "-"]%char.

Definition spec_class_domain : list ClassAtom :=
  [ClassRange "A" "Z"; ClassRange "a" "z"; ClassRange "0" "9"; ClassChar ".";
   ClassChar "-"]%char.

Definition spec_class_tld : list ClassAtom :=
  [ClassRange "A" "Z"; ClassRange "a" "z"]%char.

Definition spec_email_body : RegExp :=
  Seq (Plus (Chars spec_class_local))
    (Seq (Chars [ClassChar "@"%char])
      (Seq (Plus (Chars spec_class_domain))
        (Seq (Chars [ClassChar "."%char])
             (AtLeast 2 (Chars spec_class_tld))))).

Definition spec_email_pattern : Pattern := mkPattern spec_email_body true.

(** ** Definitions used to state the properties *)

(** Every name-addressed write of the engine is [R.over] (or [R.set], which
    is [R.over] with a constant function) through the lens
    [fieldsLens . field(fieldName) . lensProp(key)]. *)
Definition namedLens {X} (fieldName : string) (k : Key X)
  : R.Lens Form Form (option X) X :=
  R.compose fieldsLens (R.compose (field fieldName) (R.lensProp k)).

(** The rules attached to a field; a field that never had a rule attached
    has none. *)
Definition rulesOf {X} (rs : option (list X)) : list X :=
  match rs with
  | Some l => l
  | None => []
  end.

(** A rule's result that carries no message: "absence of a message
    (undefined/empty) means the rule passed". *)
Definition absent (r : option string) : bool :=
  match r with
  | None => true
  | Some s => String.eqb s ""
  end.

(** The errors of a field as the specification describes them: every rule
    is applied to the value, in attachment order, and each result that is
    not absent is collected. *)
Fixpoint spec_errors (rules : list ValidationRule) (v : option Value)
  : list (option string) :=
  match rules with
  | [] => []
  | rule :: rest =>
      let r := rule v in
      if absent r then spec_errors rest v else r :: spec_errors rest v
  end.

(** The visible flag as the specification describes it: [true] for a field
    with no conditional rules, else whether some rule returns [true]. *)
Definition spec_visible (f : Field) (values : gmap string (option Value)) : bool :=
  match rulesOf (conditionalRules f) with
  | [] => true
  | rule :: rest => existsb (fun r : ConditionalRule => r values) (rule :: rest)
  end.

(** The key under which [getValues] stores a field. *)
Definition fieldKey (f : Field) : string := propertyKey (name f).

(** [new] is [old] with the element at position [i] replaced by [f']:
    as many elements, [f'] at [i], every other position as it was. *)
Definition replacedAt (i : nat) (f' : Field) (old new : list Field) : Prop :=
  List.length new = List.length old /\
  new !! i = Some f' /\
  forall j : nat, j <> i -> new !! j = old !! j.

(** The language of a regular expression: the strings it matches as a
    whole. [ic] is the flag [i]. *)
Inductive InLang (ic : bool) : RegExp -> string -> Prop :=
  | InEps : InLang ic Eps EmptyString
  | InChars (cls : list ClassAtom) (ch : ascii) :
      classMatches ic cls ch = true -> InLang ic (Chars cls) (String ch EmptyString)
  | InSeq (r1 r2 : RegExp) (s1 s2 : string) :
      InLang ic r1 s1 -> InLang ic r2 s2 -> InLang ic (Seq r1 r2) (String.append s1 s2)
  | InAltL (r1 r2 : RegExp) (s : string) : InLang ic r1 s -> InLang ic (Alt r1 r2) s
  | InAltR (r1 r2 : RegExp) (s : string) : InLang ic r2 s -> InLang ic (Alt r1 r2) s
  | InStarNil (r : RegExp) : InLang ic (Star r) EmptyString
  | InStarApp (r : RegExp) (s1 s2 : string) :
      InLang ic r s1 -> InLang ic (Star r) s2 -> InLang ic (Star r) (String.append s1 s2).

(** A string matches a pattern when it belongs to the language of its
    body, read with the pattern's flag. *)
Definition matchesPattern (p : Pattern) (s : string) : Prop :=
  InLang (ignoreCase p) (body p) s.

(** Two expressions of the same shape whose character classes accept the
    same characters, the first read with flag [ic1], the second with
    [ic2]. *)
Fixpoint similar (ic1 ic2 : bool) (r1 r2 : RegExp) : Prop :=
  match r1, r2 with
  | Void, Void => True
  | Eps, Eps => True
  | Chars c1, Chars c2 => forall ch, classMatches ic1 c1 ch = classMatches ic2 c2 ch
  | Seq a1 b1, Seq a2 b2 => similar ic1 ic2 a1 a2 /\ similar ic1 ic2 b1 b2
  | Alt a1 b1, Alt a2 b2 => similar ic1 ic2 a1 a2 /\ similar ic1 ic2 b1 b2
  | Star a1, Star a2 => similar ic1 ic2 a1 a2
  | _, _ => False
  end.

(** ** Definitions used to state further properties *)

(** The list [l] with its first field named [n] replaced by [h] of that
    field, and [l] itself when no field is named [n]. *)
Fixpoint writeFirst (n : string) (h : Field -> Field) (l : list Field) : list Field :=
  match l with
  | [] => []
  | f :: rest =>
      if R.propEq_name n f then h f :: rest else f :: writeFirst n h rest
  end.

(** The forms a caller obtains from [newForm] with the exported
    operations of [src/index.ts]. *)
Inductive Built : Form -> Prop :=
  | Built_newForm : Built newForm
  | Built_setName (n : string) (form : Form) :
      Built form -> Built (setName n form)
  | Built_addField (t : FieldType) (n : string) (form : Form) :
      Built form -> Built (addField t n form)
  | Built_setValue (n : string) (v : Value) (form : Form) :
      Built form -> Built (setValue n v form)
  | Built_setFieldOptions (n : string) (os : list string) (form : Form) :
      Built form -> Built (setFieldOptions n os form)
  | Built_addValidationRule (n : string) (r : ValidationRule) (form : Form) :
      Built form -> Built (addValidationRule n r form)
  | Built_validate (form : Form) :
      Built form -> Built (validate form)
  | Built_addConditionalRule (n : string) (r : ConditionalRule) (form : Form) :
      Built form -> Built (addConditionalRule n r form)
  | Built_checkVisibility (form : Form) :
      Built form -> Built (checkVisibility form)
  | Built_setDefaultVisibility (n : string) (b : bool) (form : Form) :
      Built form -> Built (setDefaultVisibility n b form).

(** A field object as the operations leave it: it has a type and a name,
    and a rule array that is present is not empty. *)
Definition wellFormedField (f : Field) : Prop :=
  is_Some (type f) /\ is_Some (name f) /\
  validationRules f <> Some [] /\ conditionalRules f <> Some [].

(** Character predicates, by code unit. *)
Definition isLetter (ch : ascii) : bool :=
  let n := nat_of_ascii ch in
  ((65 <=? n)%nat && (n <=? 90)%nat) || ((97 <=? n)%nat && (n <=? 122)%nat).

Definition isDigit (ch : ascii) : bool :=
  let n := nat_of_ascii ch in (48 <=? n)%nat && (n <=? 57)%nat.

(** A letter, a digit or one of [. _ % + -]. *)
Definition isLocalChar (ch : ascii) : bool :=
  isLetter ch || isDigit ch ||
  existsb (Ascii.eqb ch) ["."; "_"; "%"; "+"; "-"]%char.

(** A letter, a digit or one of [. -]. *)
Definition isDomainChar (ch : ascii) : bool :=
  isLetter ch || isDigit ch || existsb (Ascii.eqb ch) ["."; "-"]%char.

Fixpoint allChars (p : ascii -> bool) (s : string) : bool :=
  match s with
  | EmptyString => true
  | String ch rest => p ch && allChars p rest
  end.

Fixpoint countChar (c : ascii) (s : string) : nat :=
  match s with
  | EmptyString => O
  | String ch rest => ((if Ascii.eqb ch c then 1 else 0) + countChar c rest)%nat
  end.

(** The ASCII letters [a]..[z] as [A]..[Z]; every other code unit, in
    particular every one outside ASCII, as it is. *)
Definition asciiUpper (ch : ascii) : ascii :=
  let n := nat_of_ascii ch in
  if (97 <=? n)%nat && (n <=? 122)%nat then ascii_of_nat (n - 32) else ch.

(** The string with its ASCII letters [a]..[z] replaced by [A]..[Z] and
    nothing else changed. *)
Fixpoint asciiUpperString (s : string) : string :=
  match s with
  | EmptyString => EmptyString
  | String ch rest => String (asciiUpper ch) (asciiUpperString rest)
  end.

(** The step of the fold in [getValues]. *)
Definition insertField (prev : gmap string (option Value)) (cur : Field)
  : gmap string (option Value) :=
  <[ propertyKey (name cur) := value cur ]> prev.

(** * Properties *)

(** ** The repository's tests ([src/test/api.test.ts]), evaluated *)

Example test_set_the_name : formName (setName "Example Form" newForm) = "Example Form".
Proof. reflexivity. Qed.

Example test_add_a_field :
  fields (addField text "given_name" newForm) =
  [mkField (Some text) (Some "given_name") None None None None None None None].
Proof. reflexivity. Qed.

Example test_set_field_options :
  setFieldOptions "favourite_colour" ["red"; "green"; "blue"]
    (addField select "favourite_colour" newForm) =
  mkForm "" [mkField (Some select) (Some "favourite_colour") None
                     (Some ["red"; "green"; "blue"]) None None None None None].
Proof. reflexivity. Qed.

Example test_get_a_field_value :
  getValue "given_name"
    (setValue "given_name" (VString "John") (addField text "given_name" newForm)) =
  Some (VString "John").
Proof. reflexivity. Qed.

Example test_get_all_values :
  getValues
    (setValue "family_name" (VString "Musterman")
       (addField text "family_name"
          (setValue "given_name" (VString "Max") (addField text "given_name" newForm)))) =
  <[ "family_name" := Some (VString "Musterman") ]>
    (<[ "given_name" := Some (VString "Max") ]> ∅).
Proof. reflexivity. Qed.

Example test_set_a_validation_rule :
  let rule : ValidationRule := fun _ => None in
  fields (addValidationRule "name" rule (addField text "name" newForm)) =
  [mkField (Some text) (Some "name") None None None (Some [rule]) None None None].
Proof. reflexivity. Qed.

Example test_validation_passes :
  errors <$>
    fields (validate
              (setValue "email" (VString "ben@example.com")
                 (addValidationRule "email" isEmail (addField text "email" newForm))))
      !! 0%nat =
  Some (Some []).
Proof. vm_compute. reflexivity. Qed.

Example test_validation_fails :
  errors <$>
    fields (validate
              (setValue "email" (VString "not_an_email")
                 (addValidationRule "email" isEmail (addField text "email" newForm))))
      !! 0%nat =
  Some (Some [Some "Not a valid email"]).
Proof. vm_compute. reflexivity. Qed.

Example test_set_default_visibility :
  setDefaultVisibility "favourite_shade_of_pink" false
    (addField text "favourite_shade_of_pink" (addField text "favourite_colour" newForm)) =
  mkForm "" [mkField (Some text) (Some "favourite_colour") None None None None None None None;
             mkField (Some text) (Some "favourite_shade_of_pink") None None (Some false)
                     None None None None].
Proof. reflexivity. Qed.

Example test_apply_conditional_rule :
  let rule : ConditionalRule :=
    fun values => bool_decide (values !! "favourite_colour" = Some (Some (VString "pink"))) in
  let form :=
    checkVisibility
      (setValue "favourite_colour" (VString "green")
         (addConditionalRule "favourite_shade_of_pink" rule
            (setDefaultVisibility "favourite_shade_of_pink" false
               (addField text "favourite_shade_of_pink"
                  (addField text "favourite_colour" newForm))))) in
  let updatedForm := checkVisibility (setValue "favourite_colour" (VString "pink") form) in
  visible <$> fields form !! 1%nat = Some (Some false) /\
  visible <$> fields updatedForm !! 1%nat = Some (Some true).
Proof. split; vm_compute; reflexivity. Qed.

(** ** Addressing a field by name *)

Section Addressing.
Context {A : Type} (pred : A -> bool).

Lemma find_none_Forall (arr : list A) :
  R.find pred arr = None <-> Forall (fun x => pred x = false) arr.
Proof.
  induction arr as [|x rest IH]; simpl.
  - split; [constructor | reflexivity].
  - destruct (pred x) eqn:Hx.
    + split; [discriminate |].
      intros H. inversion H; subst. congruence.
    + rewrite IH. split.
      * intros H. constructor; assumption.
      * intros H. inversion H; assumption.
Qed.

Lemma findIndex_from_none (i : Z) (arr : list A) :
  Forall (fun x => pred x = false) arr -> R.findIndex_from pred i arr = -1.
Proof.
  intros H. revert i.
  induction H as [|x rest Hx _ IH]; intros i; simpl.
  - reflexivity.
  - rewrite Hx. apply IH.
Qed.

Lemma find_split (l1 l2 : list A) (x : A) :
  Forall (fun y => pred y = false) l1 -> pred x = true ->
  R.find pred (l1 ++ x :: l2) = Some x.
Proof.
  intros H Hx.
  induction H as [|y rest Hy _ IH]; simpl.
  - rewrite Hx. reflexivity.
  - rewrite Hy. exact IH.
Qed.

Lemma findIndex_from_split (i : Z) (l1 l2 : list A) (x : A) :
  Forall (fun y => pred y = false) l1 -> pred x = true ->
  R.findIndex_from pred i (l1 ++ x :: l2) = i + R.length l1.
Proof.
  intros H Hx. revert i.
  induction H as [|y rest Hy _ IH]; intros i; simpl.
  - rewrite Hx. unfold R.length. simpl. lia.
  - rewrite Hy, IH. unfold R.length. simpl. lia.
Qed.

Lemma find_some_split (arr : list A) (x : A) :
  R.find pred arr = Some x ->
  exists l1 l2, arr = l1 ++ x :: l2 /\
                Forall (fun y => pred y = false) l1 /\ pred x = true.
Proof.
  induction arr as [|y rest IH]; simpl.
  - discriminate.
  - destruct (pred y) eqn:Hy.
    + intros [= ->]. exists [], rest. repeat split; [constructor | assumption].
    + intros H. destruct (IH H) as (l1 & l2 & -> & Hl1 & Hx).
      exists (y :: l1), l2. repeat split; [constructor; assumption | assumption].
Qed.

Lemma exists_split (arr : list A) :
  Exists (fun y => pred y = true) arr ->
  exists l1 x l2, arr = l1 ++ x :: l2 /\
                  Forall (fun y => pred y = false) l1 /\ pred x = true.
Proof.
  intros HE. destruct (R.find pred arr) as [x|] eqn:Hf.
  - destruct (find_some_split _ _ Hf) as (l1 & l2 & ? & ? & ?).
    exists l1, x, l2. auto.
  - apply find_none_Forall in Hf. exfalso.
    induction HE as [y rest Hy | y rest _ IH].
    + inversion Hf; subst. congruence.
    + inversion Hf; subst. auto.
Qed.

Lemma update_at_length (x : A) (arr : list A) :
  R.update (R.length arr) x arr = arr.
Proof.
  unfold R.update.
  replace (R.length arr >=? R.length arr) with true by (symmetry; apply Z.geb_le; lia).
  reflexivity.
Qed.

Lemma update_split (l1 l2 : list A) (x y : A) :
  R.update (R.length l1) x (l1 ++ y :: l2) = l1 ++ x :: l2.
Proof.
  unfold R.update, R.length.
  rewrite length_app. simpl List.length.
  set (n := List.length l1). set (m := List.length l2).
  replace (Z.of_nat n >=? Z.of_nat (n + S m)%nat) with false
    by (symmetry; rewrite Z.geb_leb; apply Z.leb_gt; lia).
  replace (Z.of_nat n <? - Z.of_nat (n + S m)%nat) with false
    by (symmetry; apply Z.ltb_ge; lia).
  simpl orb. cbv iota.
  replace (Z.to_nat ((Z.of_nat (n + S m)%nat + Z.of_nat n) mod Z.of_nat (n + S m)%nat))
    with (n + 0)%nat.
  - subst n m. rewrite insert_app_r. reflexivity.
  - replace (Z.of_nat (n + S m)%nat + Z.of_nat n)
      with (Z.of_nat n + 1 * Z.of_nat (n + S m)%nat) by lia.
    rewrite Z_mod_plus_full, Z.mod_small by lia. lia.
Qed.
End Addressing.

Lemma propEq_name_true (n : string) (f : Field) :
  R.propEq_name n f = true <-> name f = Some n.
Proof. unfold R.propEq_name. apply bool_decide_eq_true. Qed.

Lemma propEq_name_false (n : string) (f : Field) :
  R.propEq_name n f = false <-> name f <> Some n.
Proof. unfold R.propEq_name. apply bool_decide_eq_false. Qed.

Lemma Forall_propEq_name_false (n : string) (l : list Field) :
  Forall (fun f => name f <> Some n) l <->
  Forall (fun f => R.propEq_name n f = false) l.
Proof. apply Forall_iff. intros f. symmetry. apply propEq_name_false. Qed.

(** Writing through [field] when no field has the name: the index passed
    to [R.update] is the length of the array, and the array comes back as
    it was. *)
Lemma field_setter_missing (n : string) (val : Field) (arr : list Field) :
  Forall (fun f => name f <> Some n) arr ->
  R.setter (field n) val arr = arr.
Proof.
  intros H. apply Forall_propEq_name_false in H.
  unfold field. simpl. unfold R.findIndex.
  rewrite (findIndex_from_none _ 0 arr H). simpl.
  apply update_at_length.
Qed.

(** Writing through [field] replaces the first field that has the name. *)
Lemma field_setter_found (n : string) (val f : Field) (l1 l2 : list Field) :
  Forall (fun g => name g <> Some n) l1 -> name f = Some n ->
  R.setter (field n) val (l1 ++ f :: l2) = l1 ++ val :: l2.
Proof.
  intros H Hf. apply Forall_propEq_name_false in H. apply propEq_name_true in Hf.
  unfold field. simpl. unfold R.findIndex.
  rewrite (findIndex_from_split _ 0 l1 l2 f H Hf).
  replace (0 + R.length l1 >? -1) with true
    by (symmetry; apply Z.gtb_lt; unfold R.length; lia).
  rewrite Z.add_0_l. apply update_split.
Qed.

Lemma field_getter_found (n : string) (f : Field) (l1 l2 : list Field) :
  Forall (fun g => name g <> Some n) l1 -> name f = Some n ->
  R.getter (field n) (l1 ++ f :: l2) = Some f.
Proof.
  intros H Hf. apply Forall_propEq_name_false in H. apply propEq_name_true in Hf.
  unfold field. simpl. apply find_split; assumption.
Qed.

Lemma field_getter_missing (n : string) (arr : list Field) :
  Forall (fun f => name f <> Some n) arr ->
  R.getter (field n) arr = None.
Proof.
  intros H. apply Forall_propEq_name_false in H.
  unfold field. simpl. apply find_none_Forall. assumption.
Qed.

Lemma over_named_missing {X} (k : Key X) (n : string) (g : option X -> X) (form : Form) :
  Forall (fun f => name f <> Some n) (fields form) ->
  R.over (namedLens n k) g form = form.
Proof.
  intros H. unfold namedLens, R.over, R.compose. cbn [R.getter R.setter fieldsLens].
  rewrite field_setter_missing by assumption.
  destruct form; reflexivity.
Qed.

Lemma over_named_found {X} (k : Key X) (n : string) (g : option X -> X)
      (form : Form) (l1 l2 : list Field) (f : Field) :
  fields form = l1 ++ f :: l2 ->
  Forall (fun x => name x <> Some n) l1 -> name f = Some n ->
  R.over (namedLens n k) g form =
  mkForm (formName form) (l1 ++ writeKey k (Some (g (readKey k f))) f :: l2).
Proof.
  intros Hfs H Hf. unfold namedLens, R.over, R.compose.
  cbn [R.getter R.setter fieldsLens]. rewrite Hfs.
  rewrite field_setter_found by assumption.
  change (R.find (R.propEq_name n) (l1 ++ f :: l2)) with (R.getter (field n) (l1 ++ f :: l2)).
  rewrite field_getter_found by assumption.
  reflexivity.
Qed.

(** ** Writes to a name no field has *)

Lemma setValue_as_over (n : string) (v : Value) (form : Form) :
  setValue n v form = R.over (namedLens n key_value) (fun _ => v) form.
Proof. reflexivity. Qed.

Lemma setFieldOptions_as_over (n : string) (os : list string) (form : Form) :
  setFieldOptions n os form = R.over (namedLens n key_options) (fun _ => os) form.
Proof. reflexivity. Qed.

Lemma setDefaultVisibility_as_over (n : string) (b : bool) (form : Form) :
  setDefaultVisibility n b form =
  R.over (namedLens n key_defaultVisibility) (fun _ => b) form.
Proof. reflexivity. Qed.

Lemma addValidationRule_as_over (n : string) (r : ValidationRule) (form : Form) :
  addValidationRule n r form = R.over (namedLens n key_validationRules) (R.append r) form.
Proof. reflexivity. Qed.

Lemma addConditionalRule_as_over (n : string) (r : ConditionalRule) (form : Form) :
  addConditionalRule n r form = R.over (namedLens n key_conditionalRules) (R.append r) form.
Proof. reflexivity. Qed.

(** C1, as the code behaves: when no field of the form has the name
    [fieldName], each of the five name-addressed writes returns the form
    with its fields exactly as they were. Nothing is appended: the setter of
    [field] passes the index [R.length(arr)] to [R.update], which leaves an
    array alone when the index is not inside it. The write does not throw,
    and the update is lost. *)
Theorem write_to_missing_field_is_dropped (form : Form) (fieldName : string) :
  Forall (fun f => name f <> Some fieldName) (fields form) ->
  (forall v, setValue fieldName v form = form) /\
  (forall os, setFieldOptions fieldName os form = form) /\
  (forall b, setDefaultVisibility fieldName b form = form) /\
  (forall r, addValidationRule fieldName r form = form) /\
  (forall r, addConditionalRule fieldName r form = form).
Proof.
  intros H. repeat split; intros.
  - rewrite setValue_as_over. apply over_named_missing, H.
  - rewrite setFieldOptions_as_over. apply over_named_missing, H.
  - rewrite setDefaultVisibility_as_over. apply over_named_missing, H.
  - rewrite addValidationRule_as_over. apply over_named_missing, H.
  - rewrite addConditionalRule_as_over. apply over_named_missing, H.
Qed.

Lemma write_to_missing_field_is_dropped_witness :
  let form := addField text "given_name" newForm in
  Forall (fun f => name f <> Some "family_name") (fields form) /\
  fields (setValue "family_name" (VString "Musterman") form) =
    [mkField (Some text) (Some "given_name") None None None None None None None] /\
  fields (setValue "given_name" (VString "Max") newForm) = [].
Proof.
  cbv zeta. split; [| split].
  - repeat constructor. simpl. discriminate.
  - rewrite (proj1 (write_to_missing_field_is_dropped
                      (addField text "given_name" newForm) "family_name"
                      ltac:(repeat constructor; simpl; discriminate))).
    reflexivity.
  - rewrite (proj1 (write_to_missing_field_is_dropped newForm "given_name"
                      ltac:(constructor))).
    reflexivity.
Defined.

(** ** The validation pass *)

Lemma Boolean_absent (r : option string) : Boolean r = negb (absent r).
Proof. destruct r; reflexivity. Qed.

(** What [validate] computes for one field, in the words of the
    specification. *)
Lemma filter_map_spec_errors (rules : list ValidationRule) (v : option Value) :
  List.filter Boolean (map (fun rule : ValidationRule => rule v) rules) =
  spec_errors rules v.
Proof.
  induction rules as [|rule rest IH]; simpl.
  - reflexivity.
  - rewrite Boolean_absent, IH. destruct (absent (rule v)); reflexivity.
Qed.

(** Rules run one after the other, whatever the earlier ones answered. *)
Lemma spec_errors_app (rs1 rs2 : list ValidationRule) (v : option Value) :
  spec_errors (rs1 ++ rs2) v = spec_errors rs1 v ++ spec_errors rs2 v.
Proof.
  induction rs1 as [|rule rest IH]; simpl.
  - reflexivity.
  - rewrite IH. destruct (absent (rule v)); reflexivity.
Qed.

Lemma spec_errors_elem (rules : list ValidationRule) (v : option Value)
      (rule : ValidationRule) :
  In rule rules -> absent (rule v) = false -> In (rule v) (spec_errors rules v).
Proof.
  intros Hin Hr. apply in_split in Hin. destruct Hin as (rs1 & rs2 & ->).
  rewrite spec_errors_app. apply in_or_app. right. simpl.
  rewrite Hr. left. reflexivity.
Qed.

Lemma spec_errors_present (rules : list ValidationRule) (v : option Value) :
  (forall rule, In rule rules -> rule v <> Some "") ->
  spec_errors rules v =
  List.filter (fun r : option string => match r with Some _ => true | None => false end)
              (map (fun rule : ValidationRule => rule v) rules).
Proof.
  induction rules as [|rule rest IH]; intros H; simpl.
  - reflexivity.
  - rewrite IH by (intros r Hr; apply H; right; exact Hr).
    destruct (rule v) as [msg|] eqn:E; simpl; [| reflexivity].
    destruct (String.eqb_spec msg ""); [| reflexivity].
    subst. exfalso. apply (H rule); [left; reflexivity | exact E].
Qed.

(** A rule that answers the empty message has passed: [filter(Boolean)]
    drops the empty string as it drops [undefined]. *)
Example validate_empty_message :
  let rule : ValidationRule := fun _ => Some "" in
  map errors (fields (validate (addValidationRule "name" rule (addField text "name" newForm)))) =
  [Some []].
Proof. reflexivity. Qed.

Lemma validate_lookup (form : Form) (i : nat) :
  fields (validate form) !! i =
  (fun f => with_errors (Some (spec_errors (rulesOf (validationRules f)) (value f))) f)
    <$> fields form !! i.
Proof.
  unfold validate. cbn [fields]. rewrite list_lookup_fmap.
  destruct (fields form !! i) as [f|]; simpl; [| reflexivity].
  rewrite filter_map_spec_errors. reflexivity.
Qed.

(** C2: in the form [validate] returns, the field at each position has, as
    its [errors], exactly the results of applying every rule of
    [validationRules] to the field's value, in attachment order, that are
    not absent (an absent result being [undefined] or the empty message).
    Every rule runs: the result of a failing rule is among the errors
    whatever the rules before it answered, and the errors of rules
    [rs1 ++ rs2] are those of [rs1] followed by those of [rs2]. When no rule
    answers the empty string, the errors are exactly the results other than
    [undefined]. A field with no rule, or whose [validationRules] is absent,
    gets the empty sequence. *)
Theorem validate_collects_every_rule_result (form : Form) (i : nat) (f : Field) :
  fields form !! i = Some f ->
  exists f',
    fields (validate form) !! i = Some f' /\
    errors f' = Some (spec_errors (rulesOf (validationRules f)) (value f)) /\
    (forall rule, In rule (rulesOf (validationRules f)) ->
       absent (rule (value f)) = false ->
       In (rule (value f)) (rulesOf (errors f'))) /\
    (forall rs1 rs2, rulesOf (validationRules f) = rs1 ++ rs2 ->
       errors f' = Some (spec_errors rs1 (value f) ++ spec_errors rs2 (value f))) /\
    ((forall rule, In rule (rulesOf (validationRules f)) -> rule (value f) <> Some "") ->
       errors f' =
       Some (List.filter
               (fun r : option string => match r with Some _ => true | None => false end)
               (map (fun rule : ValidationRule => rule (value f))
                    (rulesOf (validationRules f))))) /\
    (rulesOf (validationRules f) = [] -> errors f' = Some []).
Proof.
  intros Hf.
  exists (with_errors (Some (spec_errors (rulesOf (validationRules f)) (value f))) f).
  split; [rewrite validate_lookup, Hf; reflexivity |].
  split; [reflexivity |].
  split; [intros rule Hin Hr; simpl; apply spec_errors_elem; assumption |].
  split; [intros rs1 rs2 E; simpl; rewrite E, spec_errors_app; reflexivity |].
  split; [intros H; simpl; rewrite spec_errors_present by exact H; reflexivity |].
  intros E. simpl. rewrite E. reflexivity.
Qed.

Lemma validate_collects_every_rule_result_witness :
  let tooShort : ValidationRule := fun _ => Some "Too short!" in
  let form :=
    setValue "email" (VString "not_an_email")
      (addValidationRule "email" isEmail
         (addValidationRule "email" tooShort
            (addField text "email" (addField text "given_name" newForm)))) in
  exists f0 f1,
    fields (validate form) !! 0%nat = Some f0 /\ errors f0 = Some [] /\
    fields (validate form) !! 1%nat = Some f1 /\
    errors f1 = Some [Some "Too short!"; Some "Not a valid email"].
Proof.
  cbv zeta.
  set (form := setValue _ _ _).
  pose (g0 := mkField (Some text) (Some "given_name") None None None None None None None).
  pose (g1 := mkField (Some text) (Some "email") (Some (VString "not_an_email")) None None
                      (Some [(fun _ => Some "Too short!"); isEmail]) None None None).
  assert (H0 : fields form !! 0%nat = Some g0) by reflexivity.
  assert (H1 : fields form !! 1%nat = Some g1) by reflexivity.
  destruct (validate_collects_every_rule_result form 0 g0 H0)
    as (f0 & L0 & _ & _ & _ & _ & E0).
  destruct (validate_collects_every_rule_result form 1 g1 H1) as (f1 & L1 & E1 & _).
  exists f0, f1. split; [exact L0 |]. split; [apply E0; reflexivity |].
  split; [exact L1 |]. rewrite E1. vm_compute. reflexivity.
Defined.

(** ** The visibility pass *)

Lemma checkVisibility_lookup (form : Form) (i : nat) :
  fields (checkVisibility form) !! i =
  (fun f =>
     with_visible
       (Some (match conditionalRules f with
              | Some rules => existsb (fun rule : ConditionalRule => rule (getValues form)) rules
              | None => true
              end)) f)
    <$> fields form !! i.
Proof. unfold checkVisibility. cbn [fields]. apply list_lookup_fmap. Qed.

(** C3, at the failing input: a field whose [conditionalRules] is the
    empty sequence has no conditional rules, so C3 gives it
    [visible = true]; [checkVisibility] sets its [visible] to [false]. The
    test [field.conditionalRules ? ... : true] aims at "no rules, hence
    visible" and misses the empty array, which is truthy, so that
    [[].some(...)], which is [false], decides. The claim therefore does not
    hold of the code on every form. *)
Lemma checkVisibility_empty_rules_counterexample :
  let f := mkField (Some text) (Some "given_name") (Some (VString "Ben")) None
                   (Some true) (Some []) (Some []) None None in
  let form := mkForm "" [f] in
  rulesOf (conditionalRules f) = [] /\
  spec_visible f (getValues form) = true /\
  map visible (fields (checkVisibility form)) = [Some false] /\
  ~ (forall form' : Form,
       map visible (fields (checkVisibility form')) =
       map (fun g => Some (spec_visible g (getValues form'))) (fields form')).
Proof.
  cbv zeta. split; [reflexivity |]. split; [reflexivity |]. split; [reflexivity |].
  intros H.
  specialize (H (mkForm "" [mkField (Some text) (Some "given_name") (Some (VString "Ben"))
                                     None (Some true) (Some []) (Some []) None None])).
  discriminate H.
Qed.

Lemma existsb_true_iff {X} (p : X -> bool) (l : list X) :
  existsb p l = true <-> exists x, In x l /\ p x = true.
Proof. apply existsb_exists. Qed.

(** The flag [checkVisibility] computes, case by case: it computes the
    value map once, with [getValues], and in the form it returns the field
    at each position has [visible = true] when its [conditionalRules]
    attribute is absent, and otherwise [visible = true] if and only if at
    least one of its conditional rules returns [true] on that value map. *)
Theorem checkVisibility_sets_visible (form : Form) (i : nat) (f : Field) :
  fields form !! i = Some f ->
  exists f',
    fields (checkVisibility form) !! i = Some f' /\
    (conditionalRules f = None -> visible f' = Some true) /\
    (forall rules, conditionalRules f = Some rules ->
       exists b, visible f' = Some b /\
                 (b = true <->
                  exists rule, In rule rules /\ rule (getValues form) = true)).
Proof.
  intros Hf. rewrite checkVisibility_lookup, Hf. simpl. eexists. split; [reflexivity |].
  split.
  - intros ->. reflexivity.
  - intros rules ->. simpl. eexists. split; [reflexivity |]. apply existsb_true_iff.
Qed.

Lemma checkVisibility_sets_visible_witness :
  let pink : ConditionalRule :=
    fun values => bool_decide (values !! "favourite_colour" = Some (Some (VString "pink"))) in
  let form :=
    setValue "favourite_colour" (VString "green")
      (addConditionalRule "favourite_shade_of_pink" pink
         (setDefaultVisibility "favourite_shade_of_pink" false
            (addField text "favourite_shade_of_pink"
               (addField text "favourite_colour" newForm)))) in
  exists f0 f1,
    fields (checkVisibility form) !! 0%nat = Some f0 /\ visible f0 = Some true /\
    fields (checkVisibility form) !! 1%nat = Some f1 /\ visible f1 = Some false.
Proof.
  cbv zeta.
  set (pink := fun values : gmap string (option Value) =>
                 bool_decide (values !! "favourite_colour" = Some (Some (VString "pink")))).
  set (form := setValue _ _ _).
  assert (H0 : exists f, fields form !! 0%nat = Some f /\ conditionalRules f = None)
    by (eexists; split; [vm_compute; reflexivity | reflexivity]).
  assert (H1 : exists f, fields form !! 1%nat = Some f /\ conditionalRules f = Some [pink])
    by (eexists; split; [vm_compute; reflexivity | reflexivity]).
  destruct H0 as (g0 & H0 & C0). destruct H1 as (g1 & H1 & C1).
  destruct (checkVisibility_sets_visible form 0 g0 H0) as (f0 & L0 & V0 & _).
  destruct (checkVisibility_sets_visible form 1 g1 H1) as (f1 & L1 & _ & V1).
  exists f0, f1. split; [exact L0 |]. split; [exact (V0 C0) |]. split; [exact L1 |].
  destruct (V1 _ C1) as (b & Hb & Hiff). rewrite Hb. f_equal.
  destruct b; [| reflexivity].
  destruct (proj1 Hiff eq_refl) as (rule & [<- | []] & Hrule).
  vm_compute in Hrule. discriminate Hrule.
Defined.

(** ** The passes only annotate, and running one twice changes nothing *)

Lemma map_fields_ext (g h : Field -> Field) (l : list Field) :
  (forall f, g f = h f) -> map g l = map h l.
Proof. intros H. apply map_ext. exact H. Qed.

Lemma validate_validate (form : Form) : validate (validate form) = validate form.
Proof.
  unfold validate. cbn [fields formName]. f_equal.
  rewrite map_map. apply map_fields_ext. intros f. reflexivity.
Qed.

(** [validate] and [checkVisibility] leave [name] and [value] of every
    field alone, so the value map is the same before and after. *)
Lemma getValues_annotated (g : Field -> Field) (n : string) (l : list Field) :
  (forall f, name (g f) = name f) -> (forall f, value (g f) = value f) ->
  getValues (mkForm n (map g l)) = getValues (mkForm n l).
Proof.
  intros Hn Hv. unfold getValues. cbn [fields].
  generalize (∅ : gmap string (option Value)).
  induction l as [|f rest IH]; intros m; simpl.
  - reflexivity.
  - rewrite Hn, Hv. apply IH.
Qed.

Lemma getValues_checkVisibility (form : Form) :
  getValues (checkVisibility form) = getValues form.
Proof.
  unfold checkVisibility.
  rewrite getValues_annotated by reflexivity.
  destruct form; reflexivity.
Qed.

Lemma checkVisibility_checkVisibility (form : Form) :
  checkVisibility (checkVisibility form) = checkVisibility form.
Proof.
  unfold checkVisibility at 1. rewrite getValues_checkVisibility.
  unfold checkVisibility. cbn [fields formName]. f_equal.
  rewrite map_map. apply map_fields_ext. intros f. reflexivity.
Qed.

(** C4: applying [validate] twice gives the same [errors] on every field as
    applying it once, and applying [checkVisibility] twice gives the same
    [visible] flag on every field as applying it once (the two forms are in
    fact equal). *)
Theorem validate_checkVisibility_idempotent (form : Form) :
  map errors (fields (validate (validate form))) = map errors (fields (validate form)) /\
  map visible (fields (checkVisibility (checkVisibility form))) =
    map visible (fields (checkVisibility form)) /\
  validate (validate form) = validate form /\
  checkVisibility (checkVisibility form) = checkVisibility form.
Proof.
  rewrite validate_validate, checkVisibility_checkVisibility. repeat split.
Qed.

(** C5: [validate] and [checkVisibility] only annotate. The form returned
    has the same name and as many fields, and at every position the field
    has the same [type], [name], [value], [options], [defaultVisibility],
    [validationRules] and [conditionalRules] as the field at that position
    of the input; [validate] keeps [visible] as well, and [checkVisibility]
    keeps [errors]. *)
Theorem passes_only_annotate (form : Form) :
  (formName (validate form) = formName form /\
   List.length (fields (validate form)) = List.length (fields form) /\
   forall i : nat,
     type <$> fields (validate form) !! i = type <$> fields form !! i /\
     name <$> fields (validate form) !! i = name <$> fields form !! i /\
     value <$> fields (validate form) !! i = value <$> fields form !! i /\
     options <$> fields (validate form) !! i = options <$> fields form !! i /\
     defaultVisibility <$> fields (validate form) !! i =
       defaultVisibility <$> fields form !! i /\
     validationRules <$> fields (validate form) !! i =
       validationRules <$> fields form !! i /\
     conditionalRules <$> fields (validate form) !! i =
       conditionalRules <$> fields form !! i /\
     visible <$> fields (validate form) !! i = visible <$> fields form !! i) /\
  (formName (checkVisibility form) = formName form /\
   List.length (fields (checkVisibility form)) = List.length (fields form) /\
   forall i : nat,
     type <$> fields (checkVisibility form) !! i = type <$> fields form !! i /\
     name <$> fields (checkVisibility form) !! i = name <$> fields form !! i /\
     value <$> fields (checkVisibility form) !! i = value <$> fields form !! i /\
     options <$> fields (checkVisibility form) !! i = options <$> fields form !! i /\
     defaultVisibility <$> fields (checkVisibility form) !! i =
       defaultVisibility <$> fields form !! i /\
     validationRules <$> fields (checkVisibility form) !! i =
       validationRules <$> fields form !! i /\
     conditionalRules <$> fields (checkVisibility form) !! i =
       conditionalRules <$> fields form !! i /\
     errors <$> fields (checkVisibility form) !! i = errors <$> fields form !! i).
Proof.
  split.
  - split; [reflexivity |]. split.
    + unfold validate. cbn [fields]. apply length_map.
    + intros i. rewrite validate_lookup.
      destruct (fields form !! i) as [f|]; simpl; repeat split.
  - split; [reflexivity |]. split.
    + unfold checkVisibility. cbn [fields]. apply length_map.
    + intros i. rewrite checkVisibility_lookup.
      destruct (fields form !! i) as [f|]; simpl; repeat split.
Qed.

(** ** Writes to a name some field has *)

Lemma replacedAt_split (l1 l2 : list Field) (f f' : Field) :
  replacedAt (List.length l1) f' (l1 ++ f :: l2) (l1 ++ f' :: l2).
Proof.
  unfold replacedAt. split; [| split].
  - rewrite !length_app. reflexivity.
  - rewrite lookup_app_r by (unfold length; lia).
    replace (List.length l1 - List.length l1)%nat with 0%nat by lia. reflexivity.
  - intros j Hj. destruct (Nat.lt_ge_cases j (List.length l1)) as [Hlt | Hge].
    + rewrite !lookup_app_l by exact Hlt. reflexivity.
    + rewrite !lookup_app_r by exact Hge.
      destruct (j - List.length l1)%nat as [|k] eqn:E; [lia | reflexivity].
Qed.

Section NamedWrites.
Variables (form : Form) (n : string) (l1 l2 : list Field) (f : Field).
Hypothesis Hfields : fields form = l1 ++ f :: l2.
Hypothesis Hbefore : Forall (fun g => name g <> Some n) l1.
Hypothesis Hname : name f = Some n.

Lemma getValue_first : getValue n form = value f.
Proof.
  unfold getValue, R.view, R.compose. cbn [R.getter fieldsLens].
  rewrite Hfields.
  change (R.getter (R.lensProp key_value) (R.getter (field n) (l1 ++ f :: l2)) = value f).
  rewrite field_getter_found by assumption. reflexivity.
Qed.

Lemma setValue_first (v : Value) :
  setValue n v form = mkForm (formName form) (l1 ++ with_value (Some v) f :: l2).
Proof.
  rewrite setValue_as_over.
  exact (over_named_found key_value n (fun _ => v) form l1 l2 f Hfields Hbefore Hname).
Qed.

Lemma setFieldOptions_first (os : list string) :
  setFieldOptions n os form =
  mkForm (formName form) (l1 ++ with_options (Some os) f :: l2).
Proof.
  rewrite setFieldOptions_as_over.
  exact (over_named_found key_options n (fun _ => os) form l1 l2 f Hfields Hbefore Hname).
Qed.

Lemma setDefaultVisibility_first (b : bool) :
  setDefaultVisibility n b form =
  mkForm (formName form) (l1 ++ with_defaultVisibility (Some b) f :: l2).
Proof.
  rewrite setDefaultVisibility_as_over.
  exact (over_named_found key_defaultVisibility n (fun _ => b) form l1 l2 f
           Hfields Hbefore Hname).
Qed.

Lemma addValidationRule_first (r : ValidationRule) :
  addValidationRule n r form =
  mkForm (formName form)
         (l1 ++ with_validationRules (Some (R.append r (validationRules f))) f :: l2).
Proof.
  rewrite addValidationRule_as_over.
  exact (over_named_found key_validationRules n (R.append r) form l1 l2 f
           Hfields Hbefore Hname).
Qed.

Lemma addConditionalRule_first (r : ConditionalRule) :
  addConditionalRule n r form =
  mkForm (formName form)
         (l1 ++ with_conditionalRules (Some (R.append r (conditionalRules f))) f :: l2).
Proof.
  rewrite addConditionalRule_as_over.
  exact (over_named_found key_conditionalRules n (R.append r) form l1 l2 f
           Hfields Hbefore Hname).
Qed.
End NamedWrites.

Lemma append_rulesOf {X} (r : X) (o : option (list X)) :
  R.append r o = rulesOf o ++ [r].
Proof. destruct o; reflexivity. Qed.

Lemma in_place_summary (l1 l2 : list Field) (f f' : Field) (new : list Field) :
  new = l1 ++ f' :: l2 -> name f' = name f ->
  replacedAt (List.length l1) f' (l1 ++ f :: l2) new /\
  map name new = map name (l1 ++ f :: l2).
Proof.
  intros -> Hn. split; [apply replacedAt_split |].
  rewrite !map_app. simpl. rewrite Hn. reflexivity.
Qed.

Lemma named_field_split (form : Form) (n : string) :
  Exists (fun f => name f = Some n) (fields form) ->
  exists l1 f l2, fields form = l1 ++ f :: l2 /\
                  Forall (fun g => name g <> Some n) l1 /\ name f = Some n.
Proof.
  intros HE.
  destruct (exists_split (R.propEq_name n) (fields form)) as (l1 & f & l2 & E & H1 & Hf).
  - eapply Exists_impl; [exact HE |]. intros g Hg. apply propEq_name_true, Hg.
  - exists l1, f, l2. split; [exact E |]. split.
    + apply Forall_propEq_name_false, H1.
    + apply propEq_name_true, Hf.
Qed.

(** C6: [addField] puts its new field [{type, name}] at the tail of the
    fields sequence, after all prior fields in their prior order, and keeps
    the form's name. When some field of the form has the name [fieldName],
    each of the five name-addressed setters returns a form with as many
    fields, in which one position [i], which held a field [f] named
    [fieldName], now holds [f] with the one attribute written, and every
    other position holds the field it held before; the names of the fields
    are in the same order as before. *)
Theorem addField_appends_setters_replace_in_place (form : Form) :
  (forall (t : FieldType) (n : string),
     fields (addField t n form) =
       fields form ++ [mkField (Some t) (Some n) None None None None None None None] /\
     formName (addField t n form) = formName form) /\
  (forall fieldName : string,
     Exists (fun f => name f = Some fieldName) (fields form) ->
     exists (i : nat) (f : Field),
       fields form !! i = Some f /\ name f = Some fieldName /\
       (forall v,
          replacedAt i (with_value (Some v) f)
                     (fields form) (fields (setValue fieldName v form)) /\
          map name (fields (setValue fieldName v form)) = map name (fields form)) /\
       (forall os,
          replacedAt i (with_options (Some os) f)
                     (fields form) (fields (setFieldOptions fieldName os form)) /\
          map name (fields (setFieldOptions fieldName os form)) = map name (fields form)) /\
       (forall b,
          replacedAt i (with_defaultVisibility (Some b) f)
                     (fields form) (fields (setDefaultVisibility fieldName b form)) /\
          map name (fields (setDefaultVisibility fieldName b form)) =
            map name (fields form)) /\
       (forall r,
          replacedAt i (with_validationRules (Some (rulesOf (validationRules f) ++ [r])) f)
                     (fields form) (fields (addValidationRule fieldName r form)) /\
          map name (fields (addValidationRule fieldName r form)) = map name (fields form)) /\
       (forall r,
          replacedAt i (with_conditionalRules (Some (rulesOf (conditionalRules f) ++ [r])) f)
                     (fields form) (fields (addConditionalRule fieldName r form)) /\
          map name (fields (addConditionalRule fieldName r form)) =
            map name (fields form))).
Proof.
  split.
  - intros t n. split; reflexivity.
  - intros fieldName HE.
    destruct (named_field_split form fieldName HE) as (l1 & f & l2 & E & H1 & Hf).
    exists (List.length l1), f.
    split; [rewrite E, lookup_app_r by (unfold length; lia);
            replace (List.length l1 - List.length l1)%nat with 0%nat by lia; reflexivity |].
    split; [exact Hf |].
    split; [| split; [| split; [| split]]]; intros x; rewrite E at 1 2;
      apply in_place_summary; try reflexivity.
    + rewrite (setValue_first form fieldName l1 l2 f E H1 Hf). reflexivity.
    + rewrite (setFieldOptions_first form fieldName l1 l2 f E H1 Hf). reflexivity.
    + rewrite (setDefaultVisibility_first form fieldName l1 l2 f E H1 Hf). reflexivity.
    + rewrite (addValidationRule_first form fieldName l1 l2 f E H1 Hf), append_rulesOf.
      reflexivity.
    + rewrite (addConditionalRule_first form fieldName l1 l2 f E H1 Hf), append_rulesOf.
      reflexivity.
Qed.

Lemma addField_appends_setters_replace_in_place_witness :
  let form := addField text "family_name" (addField text "given_name" newForm) in
  Exists (fun f => name f = Some "given_name") (fields form) /\
  exists (i : nat) (f : Field),
    fields form !! i = Some f /\ name f = Some "given_name" /\
    forall v, replacedAt i (with_value (Some v) f)
                         (fields form) (fields (setValue "given_name" v form)).
Proof.
  cbv zeta.
  assert (HE : Exists (fun f => name f = Some "given_name")
                      (fields (addField text "family_name"
                                 (addField text "given_name" newForm))))
    by (left; reflexivity).
  split; [exact HE |].
  destruct (proj2 (addField_appends_setters_replace_in_place _) "given_name" HE)
    as (i & f & Hi & Hn & Hv & _).
  exists i, f. split; [exact Hi |]. split; [exact Hn |].
  intros v. exact (proj1 (Hv v)).
Defined.

(** ** Several fields with one name *)

(** C10: when several fields of a form have the name [fieldName], the
    first of them in the sequence is the one addressed. With [f] the first
    field named [fieldName], [l1] the fields before it and [l2] the fields
    after it (which may hold further fields of that name), [getValue]
    returns the value of [f], and each of the five name-addressed writes
    returns the fields [l1], then [f] with the one attribute written, then
    [l2] unchanged. *)
Theorem first_field_of_a_name_is_addressed
        (form : Form) (fieldName : string) (l1 l2 : list Field) (f : Field) :
  fields form = l1 ++ f :: l2 ->
  Forall (fun g => name g <> Some fieldName) l1 ->
  name f = Some fieldName ->
  getValue fieldName form = value f /\
  (forall v, fields (setValue fieldName v form) = l1 ++ with_value (Some v) f :: l2) /\
  (forall os,
     fields (setFieldOptions fieldName os form) = l1 ++ with_options (Some os) f :: l2) /\
  (forall b,
     fields (setDefaultVisibility fieldName b form) =
       l1 ++ with_defaultVisibility (Some b) f :: l2) /\
  (forall r,
     fields (addValidationRule fieldName r form) =
       l1 ++ with_validationRules (Some (rulesOf (validationRules f) ++ [r])) f :: l2) /\
  (forall r,
     fields (addConditionalRule fieldName r form) =
       l1 ++ with_conditionalRules (Some (rulesOf (conditionalRules f) ++ [r])) f :: l2).
Proof.
  intros E H1 Hf.
  split; [exact (getValue_first form fieldName l1 l2 f E H1 Hf) |].
  split; [intros v; rewrite (setValue_first form fieldName l1 l2 f E H1 Hf); reflexivity |].
  split; [intros os;
          rewrite (setFieldOptions_first form fieldName l1 l2 f E H1 Hf); reflexivity |].
  split; [intros b;
          rewrite (setDefaultVisibility_first form fieldName l1 l2 f E H1 Hf);
          reflexivity |].
  split; intros r.
  - rewrite (addValidationRule_first form fieldName l1 l2 f E H1 Hf), append_rulesOf.
    reflexivity.
  - rewrite (addConditionalRule_first form fieldName l1 l2 f E H1 Hf), append_rulesOf.
    reflexivity.
Qed.

Lemma first_field_of_a_name_is_addressed_witness :
  let a1 := mkField (Some text) (Some "a") (Some (VString "first")) None None None None None None in
  let b := mkField (Some text) (Some "b") (Some (VString "other")) None None None None None None in
  let a2 := mkField (Some text) (Some "a") (Some (VString "second")) None None None None None None in
  let form := mkForm "" [b; a1; a2] in
  getValue "a" form = Some (VString "first") /\
  fields (setValue "a" (VString "new") form) = [b; with_value (Some (VString "new")) a1; a2].
Proof.
  cbv zeta.
  set (a1 := mkField _ (Some "a") (Some (VString "first")) _ _ _ _ _ _).
  set (b := mkField _ (Some "b") _ _ _ _ _ _ _).
  set (a2 := mkField _ (Some "a") (Some (VString "second")) _ _ _ _ _ _).
  destruct (first_field_of_a_name_is_addressed (mkForm "" [b; a1; a2]) "a" [b] [a2] a1)
    as (Hget & Hset & _).
  - reflexivity.
  - repeat constructor. simpl. discriminate.
  - reflexivity.
  - split; [exact Hget | exact (Hset (VString "new"))].
Defined.

(** ** The value map *)

Lemma getValues_snoc (n : string) (l : list Field) (f : Field) :
  getValues (mkForm n (l ++ [f])) = <[ fieldKey f := value f ]> (getValues (mkForm n l)).
Proof. unfold getValues. cbn [fields]. rewrite fold_left_app. reflexivity. Qed.

Lemma getValues_lookup_fields (n : string) (l : list Field) (k : string) :
  getValues (mkForm n l) !! k = value <$> last (filter (fun f => fieldKey f = k) l).
Proof.
  induction l as [|f l IH] using rev_ind.
  - reflexivity.
  - rewrite getValues_snoc, filter_app.
    destruct (decide (fieldKey f = k)) as [Heq | Hne].
    + rewrite Heq, lookup_insert_eq.
      rewrite (filter_cons_True _ f []) by exact Heq.
      rewrite filter_nil, last_snoc. reflexivity.
    + rewrite lookup_insert_ne by exact Hne.
      rewrite (filter_cons_False _ f []) by exact Hne.
      rewrite filter_nil, app_nil_r. exact IH.
Qed.

Lemma getValues_lookup (form : Form) (k : string) :
  getValues form !! k = value <$> last (filter (fun f => fieldKey f = k) (fields form)).
Proof. destruct form as [n l]. apply getValues_lookup_fields. Qed.

Lemma last_is_Some {X} (l : list X) : is_Some (last l) <-> l <> [].
Proof.
  destruct l as [|x l] using rev_ind.
  - split; [intros [y Hy]; discriminate | congruence].
  - rewrite last_snoc. split; [intros _ E; destruct l; discriminate | eauto].
Qed.

Lemma getValues_dom (form : Form) (k : string) :
  k ∈ dom (getValues form) <-> exists f, f ∈ fields form /\ fieldKey f = k.
Proof.
  rewrite elem_of_dom, getValues_lookup, fmap_is_Some, last_is_Some.
  split.
  - intros Hne. destruct (filter _ (fields form)) as [|f rest] eqn:E; [congruence |].
    assert (Hin : f ∈ filter (fun f => fieldKey f = k) (fields form))
      by (rewrite E; left).
    apply list_elem_of_filter in Hin. exists f. tauto.
  - intros (f & Hin & Hk) E.
    assert (Hf : f ∈ filter (fun f => fieldKey f = k) (fields form))
      by (apply list_elem_of_filter; tauto).
    rewrite E in Hf. inversion Hf.
Qed.

Lemma fieldKey_named (f : Field) (n : string) : name f = Some n -> fieldKey f = n.
Proof. unfold fieldKey. intros ->. reflexivity. Qed.

(** C7: [getValues] returns a mapping that has a key for each field and no
    other key, the key of a field being its name, and that maps a name to
    the current value of the field of that name; when several fields have
    the name, it is the value of the last of them in the sequence (the
    later field overwrites the earlier one). A field object without a
    [name] is stored under the key ["undefined"]; when every field has a
    name, the keys are exactly the names. *)
Theorem getValues_maps_names_to_values (form : Form) :
  (forall k : string,
     getValues form !! k =
     value <$> last (filter (fun f => fieldKey f = k) (fields form))) /\
  (forall k : string,
     k ∈ dom (getValues form) <-> exists f, f ∈ fields form /\ fieldKey f = k) /\
  (Forall (fun f => is_Some (name f)) (fields form) ->
   forall k : string,
     k ∈ dom (getValues form) <-> exists f, f ∈ fields form /\ name f = Some k) /\
  (forall (l1 l2 : list Field) (f : Field) (n : string),
     fields form = l1 ++ f :: l2 -> name f = Some n ->
     Forall (fun g => fieldKey g <> n) l2 ->
     getValues form !! n = Some (value f)).
Proof.
  split; [apply getValues_lookup |].
  split; [apply getValues_dom |].
  split.
  - intros Hnamed k. rewrite getValues_dom. split.
    + intros (f & Hin & Hk). exists f. split; [exact Hin |].
      rewrite Forall_forall in Hnamed. destruct (Hnamed f Hin) as [n Hn].
      rewrite <- Hk, (fieldKey_named f n Hn). exact Hn.
    + intros (f & Hin & Hn). exists f. split; [exact Hin | apply fieldKey_named, Hn].
  - intros l1 l2 f n E Hn Hl2.
    rewrite getValues_lookup, E, filter_app.
    rewrite (filter_cons_True _ f l2) by (apply fieldKey_named, Hn).
    replace (filter (fun g => fieldKey g = n) l2) with (@nil Field).
    + rewrite last_snoc. reflexivity.
    + symmetry. clear E. induction Hl2 as [|g rest Hg _ IH]; [reflexivity |].
      rewrite filter_cons_False by exact Hg. exact IH.
Qed.

Lemma getValues_maps_names_to_values_witness :
  let a1 := mkField (Some text) (Some "a") (Some (VString "first")) None None None None None None in
  let b := mkField (Some text) (Some "b") (Some (VString "other")) None None None None None None in
  let a2 := mkField (Some text) (Some "a") (Some (VString "second")) None None None None None None in
  let form := mkForm "" [a1; b; a2] in
  getValues form !! "a" = Some (Some (VString "second")) /\
  getValues form !! "b" = Some (Some (VString "other")) /\
  ("a" ∈ dom (getValues form) <-> exists f, f ∈ fields form /\ name f = Some "a").
Proof.
  cbv zeta.
  set (a1 := mkField _ (Some "a") (Some (VString "first")) _ _ _ _ _ _).
  set (b := mkField _ (Some "b") _ _ _ _ _ _ _).
  set (a2 := mkField _ (Some "a") (Some (VString "second")) _ _ _ _ _ _).
  destruct (getValues_maps_names_to_values (mkForm "" [a1; b; a2]))
    as (_ & _ & Hdom & Hlast).
  split; [| split].
  - apply (Hlast [a1; b] [] a2 "a"); [reflexivity | reflexivity | constructor].
  - apply (Hlast [a1] [a2] b "b"); [reflexivity | reflexivity |].
    repeat constructor. simpl. discriminate.
  - apply Hdom. repeat constructor; simpl; eauto.
Defined.

(** ** [defaultVisibility] and the visibility pass *)

Lemma visible_checkVisibility (form : Form) :
  map visible (fields (checkVisibility form)) =
  map (fun f =>
         Some (match conditionalRules f with
               | Some rules =>
                   existsb (fun rule : ConditionalRule => rule (getValues form)) rules
               | None => true
               end))
      (fields form).
Proof. unfold checkVisibility. cbn [fields]. rewrite map_map. reflexivity. Qed.

Lemma getValues_without_defaultVisibility (form : Form) :
  getValues (mkForm (formName form) (map (with_defaultVisibility None) (fields form))) =
  getValues form.
Proof. rewrite getValues_annotated by reflexivity. destruct form; reflexivity. Qed.

Lemma getValues_formName (n1 n2 : string) (l : list Field) :
  getValues (mkForm n1 l) = getValues (mkForm n2 l).
Proof. reflexivity. Qed.

Lemma checkVisibility_up_to_defaultVisibility (form1 form2 : Form) :
  map (with_defaultVisibility None) (fields form1) =
  map (with_defaultVisibility None) (fields form2) ->
  map visible (fields (checkVisibility form1)) =
  map visible (fields (checkVisibility form2)).
Proof.
  intros H.
  assert (Hv : getValues form1 = getValues form2).
  { rewrite <- (getValues_without_defaultVisibility form1),
            <- (getValues_without_defaultVisibility form2), H.
    apply getValues_formName. }
  rewrite !visible_checkVisibility, Hv.
  set (vis := fun f : Field => Some _).
  assert (Hvis : forall l, map vis l = map vis (map (with_defaultVisibility None) l))
    by (intros l; rewrite map_map; reflexivity).
  rewrite (Hvis (fields form1)), (Hvis (fields form2)), H. reflexivity.
Qed.

Lemma setDefaultVisibility_up_to_defaultVisibility (form : Form) (n : string) (b : bool) :
  map (with_defaultVisibility None) (fields (setDefaultVisibility n b form)) =
  map (with_defaultVisibility None) (fields form).
Proof.
  destruct (R.find (R.propEq_name n) (fields form)) as [f|] eqn:Hfind.
  - destruct (find_some_split _ _ _ Hfind) as (l1 & l2 & E & H1 & Hf).
    apply Forall_propEq_name_false in H1. apply propEq_name_true in Hf.
    rewrite (setDefaultVisibility_first form n l1 l2 f E H1 Hf), E.
    cbn [fields]. rewrite !map_app. reflexivity.
  - apply find_none_Forall, Forall_propEq_name_false in Hfind.
    rewrite setDefaultVisibility_as_over, over_named_missing by exact Hfind.
    reflexivity.
Qed.

(** C9: the visibility pass never reads [defaultVisibility]. Two forms
    whose fields are the same once [defaultVisibility] is left out of every
    field get the same [visible] flag on every field from
    [checkVisibility]; and [checkVisibility] after [setDefaultVisibility]
    gives the same [visible] flags as [checkVisibility] alone. *)
Theorem checkVisibility_ignores_defaultVisibility :
  (forall form1 form2 : Form,
     formName form1 = formName form2 ->
     map (with_defaultVisibility None) (fields form1) =
     map (with_defaultVisibility None) (fields form2) ->
     map visible (fields (checkVisibility form1)) =
     map visible (fields (checkVisibility form2))) /\
  (forall (form : Form) (fieldName : string) (visibility : bool),
     map visible (fields (checkVisibility (setDefaultVisibility fieldName visibility form))) =
     map visible (fields (checkVisibility form))).
Proof.
  split.
  - intros form1 form2 _ H. apply checkVisibility_up_to_defaultVisibility, H.
  - intros form n b. apply checkVisibility_up_to_defaultVisibility.
    apply setDefaultVisibility_up_to_defaultVisibility.
Qed.

Lemma checkVisibility_ignores_defaultVisibility_witness :
  let pink : ConditionalRule :=
    fun values => bool_decide (values !! "favourite_colour" = Some (Some (VString "pink"))) in
  let colour := mkField (Some text) (Some "favourite_colour") (Some (VString "pink"))
                        None None None None None None in
  let shade (dv : option bool) :=
    mkField (Some text) (Some "favourite_shade_of_pink") None None dv None
            (Some [pink]) None None in
  map visible (fields (checkVisibility (mkForm "" [colour; shade (Some false)]))) =
  map visible (fields (checkVisibility (mkForm "" [with_defaultVisibility (Some true) colour;
                                                    shade None]))).
Proof.
  cbv zeta.
  apply (proj1 checkVisibility_ignores_defaultVisibility); reflexivity.
Defined.

(** ** The matcher decides the language *)

Section Matcher.
Variable ic : bool.

Lemma append_empty (s1 s2 : string) :
  String.append s1 s2 = EmptyString -> s1 = EmptyString /\ s2 = EmptyString.
Proof. destruct s1; simpl; [auto | discriminate]. Qed.

Lemma nullable_InLang (r : RegExp) : nullable r = true -> InLang ic r EmptyString.
Proof.
  induction r as [| | cls | r1 IH1 r2 IH2 | r1 IH1 r2 IH2 | r IH]; simpl; intros H.
  - discriminate.
  - constructor.
  - discriminate.
  - apply andb_prop in H. destruct H as [H1 H2].
    change EmptyString with (String.append EmptyString EmptyString).
    constructor; auto.
  - apply orb_prop in H. destruct H as [H | H]; [apply InAltL | apply InAltR]; auto.
  - constructor.
Qed.

Lemma InLang_nullable (r : RegExp) (s : string) :
  InLang ic r s -> s = EmptyString -> nullable r = true.
Proof.
  induction 1 as [| cls ch Hc | r1 r2 s1 s2 _ IH1 _ IH2 | r1 r2 s _ IH | r1 r2 s _ IH
                  | r | r s1 s2 _ _ _ _]; intros E; simpl.
  - reflexivity.
  - discriminate.
  - apply append_empty in E. destruct E as [E1 E2]. rewrite IH1, IH2; auto.
  - rewrite IH; auto.
  - rewrite IH; auto. apply orb_true_r.
  - reflexivity.
  - reflexivity.
Qed.

Lemma deriv_sound (ch : ascii) (r : RegExp) :
  forall s, InLang ic (deriv ic ch r) s -> InLang ic r (String ch s).
Proof.
  induction r as [| | cls | r1 IH1 r2 IH2 | r1 IH1 r2 IH2 | r IH]; simpl; intros s H.
  - inversion H.
  - inversion H.
  - destruct (classMatches ic cls ch) eqn:Hc; inversion H; subst.
    constructor. exact Hc.
  - destruct (nullable r1) eqn:Hn.
    + inversion H as [| | | a b s0 HL | a b s0 HR | |]; subst.
      * inversion HL as [| | a b s1 s2 H1 H2 | | | |]; subst.
        change (String ch (String.append s1 s2)) with (String.append (String ch s1) s2).
        constructor; auto.
      * change (String ch s) with (String.append EmptyString (String ch s)).
        constructor; [apply nullable_InLang, Hn | auto].
    + inversion H as [| | a b s1 s2 H1 H2 | | | |]; subst.
      change (String ch (String.append s1 s2)) with (String.append (String ch s1) s2).
      constructor; auto.
  - inversion H; subst; [apply InAltL | apply InAltR]; auto.
  - inversion H as [| | a b s1 s2 H1 H2 | | | |]; subst.
    change (String ch (String.append s1 s2)) with (String.append (String ch s1) s2).
    constructor; auto.
Qed.

Lemma deriv_complete (r : RegExp) (s0 : string) :
  InLang ic r s0 ->
  forall ch s, s0 = String ch s -> InLang ic (deriv ic ch r) s.
Proof.
  induction 1 as [| cls c Hc | r1 r2 s1 s2 H1 IH1 H2 IH2 | r1 r2 s0 _ IH | r1 r2 s0 _ IH
                  | r | r s1 s2 H1 IH1 H2 IH2]; intros ch s E; simpl.
  - discriminate.
  - injection E as E1 E2. subst ch s. rewrite Hc. constructor.
  - destruct s1 as [|c s1']; simpl in E.
    + rewrite (InLang_nullable r1 EmptyString H1 eq_refl).
      apply InAltR. apply IH2, E.
    + injection E as E1 E2. subst ch s.
      assert (HS : InLang ic (Seq (deriv ic c r1) r2) (String.append s1' s2))
        by (constructor; [apply IH1; reflexivity | exact H2]).
      destruct (nullable r1); [apply InAltL |]; exact HS.
  - apply InAltL, IH, E.
  - apply InAltR, IH, E.
  - discriminate.
  - destruct s1 as [|c s1']; simpl in E.
    + apply (IH2 ch s E).
    + injection E as E1 E2. subst ch s.
      constructor; [apply IH1; reflexivity | exact H2].
Qed.

Lemma matches_InLang (s : string) :
  forall r, matches ic r s = true <-> InLang ic r s.
Proof.
  induction s as [|ch s IH]; intros r; simpl.
  - split; [apply nullable_InLang | intros H; apply (InLang_nullable r _ H eq_refl)].
  - rewrite IH. split.
    + apply deriv_sound.
    + intros H. apply (deriv_complete r _ H). reflexivity.
Qed.
End Matcher.

(** [test] answers whether the string matches the pattern. *)
Lemma test_matchesPattern (p : Pattern) (s : string) :
  test p s = true <-> matchesPattern p s.
Proof. apply matches_InLang. Qed.

(** ** Expressions that differ in how their classes are written *)

Section Similar.
Variables ic1 ic2 : bool.

Lemma similar_nullable (r1 : RegExp) :
  forall r2, similar ic1 ic2 r1 r2 -> nullable r1 = nullable r2.
Proof.
  induction r1 as [| | c1 | a1 IHa b1 IHb | a1 IHa b1 IHb | a1 IHa];
    intros [| | c2 | a2 b2 | a2 b2 | a2]; simpl; try tauto.
  - intros [Ha Hb]. rewrite (IHa _ Ha), (IHb _ Hb). reflexivity.
  - intros [Ha Hb]. rewrite (IHa _ Ha), (IHb _ Hb). reflexivity.
Qed.

Lemma similar_deriv (ch : ascii) (r1 : RegExp) :
  forall r2, similar ic1 ic2 r1 r2 ->
             similar ic1 ic2 (deriv ic1 ch r1) (deriv ic2 ch r2).
Proof.
  induction r1 as [| | c1 | a1 IHa b1 IHb | a1 IHa b1 IHb | a1 IHa];
    intros [| | c2 | a2 b2 | a2 b2 | a2]; simpl; try tauto.
  - intros H. rewrite (H ch). destruct (classMatches ic2 c2 ch); exact I.
  - intros [Ha Hb]. rewrite (similar_nullable a1 a2 Ha).
    destruct (nullable a2); simpl; auto.
  - intros [Ha Hb]. auto.
  - intros Ha. simpl. auto.
Qed.

Lemma similar_matches (s : string) :
  forall r1 r2, similar ic1 ic2 r1 r2 -> matches ic1 r1 s = matches ic2 r2 s.
Proof.
  induction s as [|ch s IH]; intros r1 r2 H; simpl.
  - apply similar_nullable, H.
  - apply IH, similar_deriv, H.
Qed.
End Similar.

(** ** [isEmail] *)

Ltac by_cases_on_character ch :=
  destruct ch as [[] [] [] [] [] [] [] []]; vm_compute; reflexivity.

Lemma class_local_spec (ch : ascii) :
  classMatches true class_local ch = classMatches true spec_class_local ch.
Proof. by_cases_on_character ch. Qed.

Lemma class_domain_spec (ch : ascii) :
  classMatches true class_domain ch = classMatches true spec_class_domain ch.
Proof. by_cases_on_character ch. Qed.

Lemma class_tld_spec (ch : ascii) :
  classMatches true class_tld ch = classMatches true spec_class_tld ch.
Proof. by_cases_on_character ch. Qed.

(** With both cases of every letter written in the classes, the flag [i]
    adds nothing. *)
Lemma spec_class_local_flag (ch : ascii) :
  classMatches true spec_class_local ch = classMatches false spec_class_local ch.
Proof. by_cases_on_character ch. Qed.

Lemma spec_class_domain_flag (ch : ascii) :
  classMatches true spec_class_domain ch = classMatches false spec_class_domain ch.
Proof. by_cases_on_character ch. Qed.

Lemma spec_class_tld_flag (ch : ascii) :
  classMatches true spec_class_tld ch = classMatches false spec_class_tld ch.
Proof. by_cases_on_character ch. Qed.

Lemma class_single_flag (c ch : ascii) :
  (c = "@" \/ c = ".")%char ->
  classMatches true [ClassChar c] ch = classMatches false [ClassChar c] ch.
Proof. intros [-> | ->]; by_cases_on_character ch. Qed.

Lemma EMAIL_REGEX_similar_spec :
  similar true true (body EMAIL_REGEX) spec_email_body.
Proof.
  unfold EMAIL_REGEX, spec_email_body, Plus. cbn [body AtLeast similar].
  split; [split; exact class_local_spec |].
  split; [intros ch; reflexivity |].
  split; [split; exact class_domain_spec |].
  split; [intros ch; reflexivity |].
  split; [| split]; exact class_tld_spec.
Qed.

Lemma spec_email_body_flag : similar true false spec_email_body spec_email_body.
Proof.
  unfold spec_email_body, Plus. cbn [AtLeast similar].
  split; [split; exact spec_class_local_flag |].
  split; [intros ch; apply class_single_flag; left; reflexivity |].
  split; [split; exact spec_class_domain_flag |].
  split; [intros ch; apply class_single_flag; right; reflexivity |].
  split; [| split]; exact spec_class_tld_flag.
Qed.

Lemma test_EMAIL_REGEX_spec (s : string) :
  test EMAIL_REGEX s = test spec_email_pattern s.
Proof. apply similar_matches, EMAIL_REGEX_similar_spec. Qed.

Lemma isEmail_string (s : string) :
  isEmail (Some (VString s)) =
  if test spec_email_pattern s then None else Some "Not a valid email".
Proof. unfold isEmail. simpl ToString. rewrite test_EMAIL_REGEX_spec. reflexivity. Qed.

(** C8: for every string [s], [isEmail] returns nothing when [s] matches
    [^[A-Za-z0-9._%+-]+@[A-Za-z0-9.-]+\.[A-Za-z]{2,}$] case-insensitively
    and returns exactly ["Not a valid email"] when it does not (matching
    that pattern case-sensitively is the same thing). ["not_an_email"] gets
    the error and ["ben@example.com"] gets nothing. *)
Theorem isEmail_matches_spec_pattern :
  (forall s : string,
     matchesPattern spec_email_pattern s -> isEmail (Some (VString s)) = None) /\
  (forall s : string,
     ~ matchesPattern spec_email_pattern s ->
     isEmail (Some (VString s)) = Some "Not a valid email") /\
  (forall s : string,
     isEmail (Some (VString s)) = None <-> matchesPattern spec_email_pattern s) /\
  (forall s : string,
     matchesPattern spec_email_pattern s <->
     matchesPattern (mkPattern spec_email_body false) s) /\
  isEmail (Some (VString "not_an_email")) = Some "Not a valid email" /\
  isEmail (Some (VString "ben@example.com")) = None.
Proof.
  assert (Hyes : forall s, matchesPattern spec_email_pattern s ->
                           isEmail (Some (VString s)) = None).
  { intros s H. apply test_matchesPattern in H. rewrite isEmail_string, H. reflexivity. }
  assert (Hno : forall s, ~ matchesPattern spec_email_pattern s ->
                          isEmail (Some (VString s)) = Some "Not a valid email").
  { intros s H. rewrite isEmail_string.
    destruct (test spec_email_pattern s) eqn:E; [| reflexivity].
    exfalso. apply H, test_matchesPattern, E. }
  split; [exact Hyes |]. split; [exact Hno |]. split; [| split; [| split]].
  - intros s. split; [| apply Hyes].
    intros H. rewrite isEmail_string in H.
    destruct (test spec_email_pattern s) eqn:E; [| discriminate].
    apply test_matchesPattern, E.
  - intros s. rewrite <- !test_matchesPattern. unfold test, spec_email_pattern.
    cbn [ignoreCase body].
    rewrite (similar_matches true false s _ _ spec_email_body_flag). reflexivity.
  - vm_compute. reflexivity.
  - vm_compute. reflexivity.
Qed.

Lemma isEmail_matches_spec_pattern_witness :
  matchesPattern spec_email_pattern "Ben@Example.COM" /\
  isEmail (Some (VString "Ben@Example.COM")) = None /\
  ~ matchesPattern spec_email_pattern "ben@example" /\
  isEmail (Some (VString "ben@example")) = Some "Not a valid email".
Proof.
  assert (H1 : matchesPattern spec_email_pattern "Ben@Example.COM")
    by (apply test_matchesPattern; vm_compute; reflexivity).
  assert (H2 : ~ matchesPattern spec_email_pattern "ben@example")
    by (intros H; apply test_matchesPattern in H; vm_compute in H; discriminate H).
  split; [exact H1 |].
  split; [exact (proj1 isEmail_matches_spec_pattern _ H1) |].
  split; [exact H2 |].
  exact (proj1 (proj2 isEmail_matches_spec_pattern) _ H2).
Defined.

(** * Further properties of the engine *)

(** ** Name-addressed writes as a replacement of the first match *)

Lemma writeFirst_missing (n : string) (h : Field -> Field) (l : list Field) :
  Forall (fun f => name f <> Some n) l -> writeFirst n h l = l.
Proof.
  induction 1 as [|f rest Hf _ IH]; simpl.
  - reflexivity.
  - apply propEq_name_false in Hf. rewrite Hf, IH. reflexivity.
Qed.

Lemma writeFirst_split (n : string) (h : Field -> Field) (l1 l2 : list Field) (f : Field) :
  Forall (fun g => name g <> Some n) l1 -> name f = Some n ->
  writeFirst n h (l1 ++ f :: l2) = l1 ++ h f :: l2.
Proof.
  intros H Hf. induction H as [|g rest Hg _ IH]; simpl.
  - apply propEq_name_true in Hf. rewrite Hf. reflexivity.
  - apply propEq_name_false in Hg. rewrite Hg, IH. reflexivity.
Qed.

Lemma first_named_or_none (n : string) (l : list Field) :
  Forall (fun f => name f <> Some n) l \/
  exists l1 f l2, l = l1 ++ f :: l2 /\
                  Forall (fun g => name g <> Some n) l1 /\ name f = Some n.
Proof.
  destruct (R.find (R.propEq_name n) l) as [f|] eqn:Hfind.
  - right. destruct (find_some_split _ _ _ Hfind) as (l1 & l2 & E & H1 & Hf).
    exists l1, f, l2. split; [exact E |]. split.
    + apply Forall_propEq_name_false, H1.
    + apply propEq_name_true, Hf.
  - left. apply Forall_propEq_name_false, find_none_Forall, Hfind.
Qed.

Lemma over_named_writeFirst {X} (k : Key X) (n : string) (g : option X -> X) (form : Form) :
  R.over (namedLens n k) g form =
  mkForm (formName form)
         (writeFirst n (fun f => writeKey k (Some (g (readKey k f))) f) (fields form)).
Proof.
  destruct (first_named_or_none n (fields form)) as [H | (l1 & f & l2 & E & H1 & Hf)].
  - rewrite over_named_missing, writeFirst_missing by exact H. destruct form; reflexivity.
  - rewrite (over_named_found k n g form l1 l2 f E H1 Hf), E.
    rewrite writeFirst_split by assumption. reflexivity.
Qed.

Lemma setValue_writeFirst (n : string) (v : Value) (form : Form) :
  setValue n v form =
  mkForm (formName form) (writeFirst n (with_value (Some v)) (fields form)).
Proof.
  rewrite setValue_as_over.
  exact (over_named_writeFirst key_value n (fun _ => v) form).
Qed.

Lemma setFieldOptions_writeFirst (n : string) (os : list string) (form : Form) :
  setFieldOptions n os form =
  mkForm (formName form) (writeFirst n (with_options (Some os)) (fields form)).
Proof.
  rewrite setFieldOptions_as_over.
  exact (over_named_writeFirst key_options n (fun _ => os) form).
Qed.

Lemma setDefaultVisibility_writeFirst (n : string) (b : bool) (form : Form) :
  setDefaultVisibility n b form =
  mkForm (formName form) (writeFirst n (with_defaultVisibility (Some b)) (fields form)).
Proof.
  rewrite setDefaultVisibility_as_over.
  exact (over_named_writeFirst key_defaultVisibility n (fun _ => b) form).
Qed.

Lemma addValidationRule_writeFirst (n : string) (r : ValidationRule) (form : Form) :
  addValidationRule n r form =
  mkForm (formName form)
         (writeFirst n
            (fun f => with_validationRules (Some (R.append r (validationRules f))) f)
            (fields form)).
Proof.
  rewrite addValidationRule_as_over.
  exact (over_named_writeFirst key_validationRules n (R.append r) form).
Qed.

Lemma addConditionalRule_writeFirst (n : string) (r : ConditionalRule) (form : Form) :
  addConditionalRule n r form =
  mkForm (formName form)
         (writeFirst n
            (fun f => with_conditionalRules (Some (R.append r (conditionalRules f))) f)
            (fields form)).
Proof.
  rewrite addConditionalRule_as_over.
  exact (over_named_writeFirst key_conditionalRules n (R.append r) form).
Qed.

Lemma getValue_find (n : string) (form : Form) :
  getValue n form = R.prop key_value (R.find (R.propEq_name n) (fields form)).
Proof. reflexivity. Qed.

Section WriteFirst.
Variables (n : string) (h : Field -> Field).
Hypothesis h_name : forall f, name (h f) = name f.

Lemma propEq_name_h (m : string) (f : Field) :
  R.propEq_name m (h f) = R.propEq_name m f.
Proof. unfold R.propEq_name. rewrite h_name. reflexivity. Qed.

Lemma find_writeFirst_same (l : list Field) :
  R.find (R.propEq_name n) (writeFirst n h l) = h <$> R.find (R.propEq_name n) l.
Proof.
  induction l as [|f rest IH]; simpl.
  - reflexivity.
  - destruct (R.propEq_name n f) eqn:E; simpl.
    + rewrite propEq_name_h, E. reflexivity.
    + rewrite E. exact IH.
Qed.

Lemma find_writeFirst_other (m : string) (l : list Field) :
  m <> n ->
  R.find (R.propEq_name m) (writeFirst n h l) = R.find (R.propEq_name m) l.
Proof.
  intros Hmn. induction l as [|f rest IH]; simpl.
  - reflexivity.
  - destruct (R.propEq_name n f) eqn:E; simpl.
    + rewrite propEq_name_h.
      apply propEq_name_true in E.
      replace (R.propEq_name m f) with false; [reflexivity |].
      symmetry. apply propEq_name_false. rewrite E. congruence.
    + destruct (R.propEq_name m f); [reflexivity | exact IH].
Qed.

Lemma map_name_writeFirst (l : list Field) :
  map name (writeFirst n h l) = map name l.
Proof.
  induction l as [|f rest IH]; simpl.
  - reflexivity.
  - destruct (R.propEq_name n f); simpl; [rewrite h_name | rewrite IH]; reflexivity.
Qed.

Lemma writeFirst_twice (h' : Field -> Field) (l : list Field) :
  writeFirst n h' (writeFirst n h l) = writeFirst n (fun f => h' (h f)) l.
Proof.
  induction l as [|f rest IH]; simpl.
  - reflexivity.
  - destruct (R.propEq_name n f) eqn:E; simpl.
    + rewrite propEq_name_h, E. reflexivity.
    + rewrite E, IH. reflexivity.
Qed.

Lemma writeFirst_commute (m : string) (h' : Field -> Field) (l : list Field) :
  (forall f, name (h' f) = name f) -> m <> n ->
  writeFirst n h (writeFirst m h' l) = writeFirst m h' (writeFirst n h l).
Proof.
  intros h'_name Hmn. induction l as [|f rest IH]; simpl.
  - reflexivity.
  - destruct (R.propEq_name m f) eqn:Em, (R.propEq_name n f) eqn:En; simpl.
    + apply propEq_name_true in Em. apply propEq_name_true in En. congruence.
    + unfold R.propEq_name at 1. rewrite h'_name. fold (R.propEq_name n f).
      rewrite En, Em. reflexivity.
    + rewrite propEq_name_h, Em, En. reflexivity.
    + rewrite En, Em, IH. reflexivity.
Qed.

Lemma getValues_writeFirst (nm : string) (l : list Field) :
  (forall f, value (h f) = value f) ->
  getValues (mkForm nm (writeFirst n h l)) = getValues (mkForm nm l).
Proof.
  intros h_value. unfold getValues. cbn [fields].
  generalize (∅ : gmap string (option Value)).
  induction l as [|f rest IH]; intros m; simpl.
  - reflexivity.
  - destruct (R.propEq_name n f); simpl.
    + rewrite h_name, h_value. reflexivity.
    + apply IH.
Qed.
End WriteFirst.

Lemma writeFirst_ext (n : string) (h h' : Field -> Field) (l : list Field) :
  (forall f, h f = h' f) -> writeFirst n h l = writeFirst n h' l.
Proof.
  intros H. induction l as [|f rest IH]; simpl.
  - reflexivity.
  - rewrite H, IH. reflexivity.
Qed.

Lemma length_writeFirst (n : string) (h : Field -> Field) (l : list Field) :
  List.length (writeFirst n h l) = List.length l.
Proof.
  induction l as [|f rest IH]; simpl.
  - reflexivity.
  - destruct (R.propEq_name n f); simpl; [| rewrite IH]; reflexivity.
Qed.

(** ** Reading back what was written *)

Lemma Exists_named_find (n : string) (l : list Field) :
  Exists (fun f => name f = Some n) l ->
  exists f, R.find (R.propEq_name n) l = Some f /\ name f = Some n.
Proof.
  intros HE.
  destruct (exists_split (R.propEq_name n) l) as (l1 & f & l2 & E & H1 & Hf).
  - eapply Exists_impl; [exact HE |]. intros g Hg. apply propEq_name_true, Hg.
  - exists f. split; [rewrite E; apply find_split; assumption | apply propEq_name_true, Hf].
Qed.

(** X1: [getValue] after [setValue] under the same name returns the value
    just written when some field of the form has that name; when no field
    has it, the write was lost and the read returns nothing. *)
Theorem getValue_after_setValue (form : Form) (n : string) (v : Value) :
  (Exists (fun f => name f = Some n) (fields form) ->
   getValue n (setValue n v form) = Some v) /\
  (Forall (fun f => name f <> Some n) (fields form) ->
   getValue n form = None /\ getValue n (setValue n v form) = None).
Proof.
  split.
  - intros HE. destruct (Exists_named_find n _ HE) as (f & Hfind & _).
    rewrite getValue_find, setValue_writeFirst. cbn [fields].
    rewrite find_writeFirst_same by reflexivity. rewrite Hfind. reflexivity.
  - intros H.
    assert (Hnone : getValue n form = None).
    { rewrite getValue_find.
      apply Forall_propEq_name_false, find_none_Forall in H. rewrite H. reflexivity. }
    split; [exact Hnone |].
    rewrite setValue_as_over, over_named_missing by exact H. exact Hnone.
Qed.

Lemma getValue_after_setValue_witness :
  getValue "given_name"
    (setValue "given_name" (VString "John") (addField text "given_name" newForm)) =
    Some (VString "John") /\
  getValue "family_name"
    (setValue "family_name" (VString "Doe") (addField text "given_name" newForm)) = None.
Proof.
  split.
  - apply (proj1 (getValue_after_setValue _ _ _)). left. reflexivity.
  - apply (proj2 (getValue_after_setValue _ _ _)).
    repeat constructor. simpl. discriminate.
Defined.

(** X2: a write under one name is not seen by a read under another name:
    for [m] other than [n], [getValue m] gives the same result before and
    after [setValue n v], on every form. *)
Theorem getValue_other_name_unchanged (form : Form) (n m : string) (v : Value) :
  m <> n -> getValue m (setValue n v form) = getValue m form.
Proof.
  intros Hmn. rewrite !getValue_find, setValue_writeFirst. cbn [fields].
  rewrite find_writeFirst_other by (reflexivity || exact Hmn). reflexivity.
Qed.

Lemma getValue_other_name_unchanged_witness :
  let form := setValue "a" (VString "1") (addField text "b" (addField text "a" newForm)) in
  getValue "a" (setValue "b" (VString "2") form) = getValue "a" form.
Proof.
  cbv zeta. apply getValue_other_name_unchanged. discriminate.
Defined.

Lemma getValue_writeFirst_frame (n m : string) (h : Field -> Field) (nm : string)
      (l : list Field) :
  (forall f, name (h f) = name f) -> (forall f, value (h f) = value f) ->
  getValue m (mkForm nm (writeFirst n h l)) = getValue m (mkForm nm l).
Proof.
  intros Hn Hv. rewrite !getValue_find. cbn [fields].
  destruct (decide (m = n)) as [-> | Hmn].
  - rewrite find_writeFirst_same by exact Hn.
    destruct (R.find (R.propEq_name n) l) as [f|]; simpl; [apply Hv | reflexivity].
  - rewrite find_writeFirst_other by assumption. reflexivity.
Qed.

(** X3: the writes that do not set a value ([setFieldOptions],
    [setDefaultVisibility], [addValidationRule], [addConditionalRule])
    change no value: on every form, for every name written and every name
    read, [getValue] and [getValues] give the same result before and
    after. *)
Theorem other_writes_keep_values (form : Form) (n : string) :
  (forall os m,
     getValue m (setFieldOptions n os form) = getValue m form /\
     getValues (setFieldOptions n os form) = getValues form) /\
  (forall b m,
     getValue m (setDefaultVisibility n b form) = getValue m form /\
     getValues (setDefaultVisibility n b form) = getValues form) /\
  (forall r m,
     getValue m (addValidationRule n r form) = getValue m form /\
     getValues (addValidationRule n r form) = getValues form) /\
  (forall r m,
     getValue m (addConditionalRule n r form) = getValue m form /\
     getValues (addConditionalRule n r form) = getValues form).
Proof.
  destruct form as [nm l].
  split; [| split; [| split]]; intros x m.
  - rewrite setFieldOptions_writeFirst. cbn [fields formName].
    split; [apply getValue_writeFirst_frame | apply getValues_writeFirst]; reflexivity.
  - rewrite setDefaultVisibility_writeFirst. cbn [fields formName].
    split; [apply getValue_writeFirst_frame | apply getValues_writeFirst]; reflexivity.
  - rewrite addValidationRule_writeFirst. cbn [fields formName].
    split; [apply getValue_writeFirst_frame | apply getValues_writeFirst]; reflexivity.
  - rewrite addConditionalRule_writeFirst. cbn [fields formName].
    split; [apply getValue_writeFirst_frame | apply getValues_writeFirst]; reflexivity.
Qed.

(** ** How writes compose *)

(** X4: of two writes of the same attribute under the same name the later
    one wins: [setValue n v2] after [setValue n v1] gives the form that
    [setValue n v2] alone gives, and likewise for [setFieldOptions] and
    [setDefaultVisibility]; on every form. *)
Theorem last_write_wins (form : Form) (n : string) :
  (forall v1 v2, setValue n v2 (setValue n v1 form) = setValue n v2 form) /\
  (forall os1 os2,
     setFieldOptions n os2 (setFieldOptions n os1 form) = setFieldOptions n os2 form) /\
  (forall b1 b2,
     setDefaultVisibility n b2 (setDefaultVisibility n b1 form) =
     setDefaultVisibility n b2 form).
Proof.
  split; [| split]; intros x1 x2.
  - rewrite !setValue_writeFirst. cbn [fields formName].
    rewrite writeFirst_twice by reflexivity. reflexivity.
  - rewrite !setFieldOptions_writeFirst. cbn [fields formName].
    rewrite writeFirst_twice by reflexivity. reflexivity.
  - rewrite !setDefaultVisibility_writeFirst. cbn [fields formName].
    rewrite writeFirst_twice by reflexivity. reflexivity.
Qed.

(** X5: writes under different names can be made in either order: for
    [m] other than [n], [setValue n v] and [setValue m w] commute, and so
    do [setValue n v] and each of the other writes under [m]; on every
    form. *)
Theorem writes_to_different_names_commute (form : Form) (n m : string) (v : Value) :
  m <> n ->
  (forall w, setValue n v (setValue m w form) = setValue m w (setValue n v form)) /\
  (forall os,
     setValue n v (setFieldOptions m os form) = setFieldOptions m os (setValue n v form)) /\
  (forall b,
     setValue n v (setDefaultVisibility m b form) =
     setDefaultVisibility m b (setValue n v form)) /\
  (forall r,
     setValue n v (addValidationRule m r form) =
     addValidationRule m r (setValue n v form)) /\
  (forall r,
     setValue n v (addConditionalRule m r form) =
     addConditionalRule m r (setValue n v form)).
Proof.
  intros Hmn.
  split; [| split; [| split; [| split]]]; intros x.
  - rewrite !setValue_writeFirst. cbn [fields formName].
    rewrite (writeFirst_commute n (with_value (Some v)) (fun f => eq_refl) m)
      by (reflexivity || exact Hmn).
    reflexivity.
  - rewrite !setValue_writeFirst, !setFieldOptions_writeFirst, ?setValue_writeFirst.
    cbn [fields formName].
    rewrite (writeFirst_commute n (with_value (Some v)) (fun f => eq_refl) m)
      by (reflexivity || exact Hmn).
    reflexivity.
  - rewrite !setValue_writeFirst, !setDefaultVisibility_writeFirst, ?setValue_writeFirst.
    cbn [fields formName].
    rewrite (writeFirst_commute n (with_value (Some v)) (fun f => eq_refl) m)
      by (reflexivity || exact Hmn).
    reflexivity.
  - rewrite !setValue_writeFirst, !addValidationRule_writeFirst, ?setValue_writeFirst.
    cbn [fields formName].
    rewrite (writeFirst_commute n (with_value (Some v)) (fun f => eq_refl) m)
      by (reflexivity || exact Hmn).
    reflexivity.
  - rewrite !setValue_writeFirst, !addConditionalRule_writeFirst, ?setValue_writeFirst.
    cbn [fields formName].
    rewrite (writeFirst_commute n (with_value (Some v)) (fun f => eq_refl) m)
      by (reflexivity || exact Hmn).
    reflexivity.
Qed.

Lemma writes_to_different_names_commute_witness :
  let form := addField text "family_name" (addField text "given_name" newForm) in
  setValue "given_name" (VString "Max") (setValue "family_name" (VString "Musterman") form) =
  setValue "family_name" (VString "Musterman") (setValue "given_name" (VString "Max") form).
Proof.
  cbv zeta.
  apply (proj1 (writes_to_different_names_commute _ "given_name" "family_name"
                  (VString "Max") ltac:(discriminate))).
Defined.

(** ** Attaching rules, then running a pass *)

Lemma lookup_middle (l1 l2 : list Field) (f : Field) :
  (l1 ++ f :: l2) !! List.length l1 = Some f.
Proof.
  rewrite lookup_app_r by (unfold length; lia).
  replace (List.length l1 - List.length l1)%nat with 0%nat by lia. reflexivity.
Qed.

Lemma lookup_middle_other (l1 l2 : list Field) (f f' : Field) (j : nat) :
  j <> List.length l1 -> (l1 ++ f' :: l2) !! j = (l1 ++ f :: l2) !! j.
Proof. intros Hj. apply (replacedAt_split l1 l2 f f'). exact Hj. Qed.

(** X6: attaching a validation rule adds at most one error and removes
    none. With [f] the first field named [n], at position [i]: after
    [addValidationRule n r], [validate] gives that field the errors it
    gave before, followed by the result of [r] on the field's value when
    that result is a message; every other field comes out of [validate] as
    before. *)
Theorem addValidationRule_then_validate
        (form : Form) (n : string) (r : ValidationRule) (l1 l2 : list Field) (f : Field) :
  fields form = l1 ++ f :: l2 ->
  Forall (fun g => name g <> Some n) l1 ->
  name f = Some n ->
  exists es,
    errors <$> fields (validate form) !! List.length l1 = Some (Some es) /\
    errors <$> fields (validate (addValidationRule n r form)) !! List.length l1 =
      Some (Some (es ++ (if absent (r (value f)) then [] else [r (value f)]))) /\
    forall j : nat, j <> List.length l1 ->
      fields (validate (addValidationRule n r form)) !! j = fields (validate form) !! j.
Proof.
  intros E H1 Hf.
  exists (spec_errors (rulesOf (validationRules f)) (value f)).
  rewrite (addValidationRule_first form n l1 l2 f E H1 Hf).
  split; [| split].
  - rewrite validate_lookup, E, lookup_middle. reflexivity.
  - rewrite validate_lookup. cbn [fields]. rewrite lookup_middle. simpl.
    rewrite append_rulesOf, spec_errors_app. simpl.
    destruct (absent (r (value f))); reflexivity.
  - intros j Hj. rewrite !validate_lookup. cbn [fields].
    rewrite E, (lookup_middle_other l1 l2 f _ j Hj). reflexivity.
Qed.

Lemma addValidationRule_then_validate_witness :
  let tooShort : ValidationRule := fun _ => Some "Too short!" in
  let form :=
    setValue "email" (VString "not_an_email")
      (addValidationRule "email" isEmail (addField text "email" newForm)) in
  exists es,
    errors <$> fields (validate form) !! 0%nat = Some (Some es) /\
    errors <$> fields (validate (addValidationRule "email" tooShort form)) !! 0%nat =
      Some (Some (es ++ [Some "Too short!"])).
Proof.
  cbv zeta.
  set (form := setValue _ _ _).
  pose (g := mkField (Some text) (Some "email") (Some (VString "not_an_email")) None None
                     (Some [isEmail]) None None None).
  destruct (addValidationRule_then_validate form "email" (fun _ => Some "Too short!")
              [] [] g eq_refl ltac:(constructor) eq_refl) as (es & H0 & H1 & _).
  exists es. split; [exact H0 | exact H1].
Defined.

(** X7: attaching a conditional rule. With [f] the first field named [n],
    at position [i], and [b] the flag [checkVisibility] gave it before:
    when [f] had no [conditionalRules] attribute, [b] was [true] and after
    [addConditionalRule n r] the flag is the answer of [r] on the value map
    (so the field can become hidden); when [f] had the attribute, the flag
    becomes [b || r values] (a field that was visible stays visible). The
    value map is the same before and after, and every other field gets the
    flag it got before. *)
Theorem addConditionalRule_then_checkVisibility
        (form : Form) (n : string) (r : ConditionalRule) (l1 l2 : list Field) (f : Field) :
  fields form = l1 ++ f :: l2 ->
  Forall (fun g => name g <> Some n) l1 ->
  name f = Some n ->
  exists b,
    visible <$> fields (checkVisibility form) !! List.length l1 = Some (Some b) /\
    (conditionalRules f = None -> b = true) /\
    visible <$> fields (checkVisibility (addConditionalRule n r form)) !! List.length l1 =
      Some (Some (match conditionalRules f with
                  | None => r (getValues form)
                  | Some _ => b || r (getValues form)
                  end)) /\
    forall j : nat, j <> List.length l1 ->
      visible <$> fields (checkVisibility (addConditionalRule n r form)) !! j =
      visible <$> fields (checkVisibility form) !! j.
Proof.
  intros E H1 Hf.
  assert (Hv : getValues (addConditionalRule n r form) = getValues form).
  { destruct form as [nm l]. rewrite addConditionalRule_writeFirst. cbn [fields formName].
    apply getValues_writeFirst; reflexivity. }
  eexists. split; [rewrite checkVisibility_lookup, E, lookup_middle; reflexivity |].
  split; [intros ->; reflexivity |].
  split.
  - rewrite checkVisibility_lookup, Hv.
    rewrite (addConditionalRule_first form n l1 l2 f E H1 Hf). cbn [fields].
    rewrite lookup_middle. simpl.
    destruct (conditionalRules f) as [rules|]; simpl.
    + rewrite existsb_app. simpl. rewrite orb_false_r. reflexivity.
    + rewrite orb_false_r. reflexivity.
  - intros j Hj. rewrite !checkVisibility_lookup, Hv.
    rewrite (addConditionalRule_first form n l1 l2 f E H1 Hf). cbn [fields].
    rewrite E, (lookup_middle_other l1 l2 f _ j Hj). reflexivity.
Qed.

Lemma addConditionalRule_then_checkVisibility_witness :
  let never : ConditionalRule := fun _ => false in
  let form := addField text "favourite_shade_of_pink" newForm in
  visible <$> fields (checkVisibility form) !! 0%nat = Some (Some true) /\
  visible <$> fields (checkVisibility
                        (addConditionalRule "favourite_shade_of_pink" never form)) !! 0%nat =
    Some (Some false).
Proof.
  cbv zeta.
  pose (g := mkField (Some text) (Some "favourite_shade_of_pink")
                     None None None None None None None).
  destruct (addConditionalRule_then_checkVisibility
              (addField text "favourite_shade_of_pink" newForm)
              "favourite_shade_of_pink" (fun _ => false) [] [] g
              eq_refl ltac:(constructor) eq_refl) as (b & H0 & Hb & H1 & _).
  rewrite (Hb eq_refl) in H0. split; [exact H0 | exact H1].
Defined.

(** ** The two passes together *)

Lemma getValues_validate (form : Form) : getValues (validate form) = getValues form.
Proof.
  unfold validate. rewrite getValues_annotated by reflexivity. destruct form; reflexivity.
Qed.

(** X8: the two passes can be run in either order:
    [validate (checkVisibility form)] and [checkVisibility (validate form)]
    are the same form, in which every field carries both its [errors] and
    its [visible] flag. *)
Theorem validate_checkVisibility_commute (form : Form) :
  validate (checkVisibility form) = checkVisibility (validate form) /\
  forall i f, fields form !! i = Some f ->
    exists f', fields (validate (checkVisibility form)) !! i = Some f' /\
               is_Some (errors f') /\ is_Some (visible f').
Proof.
  assert (Hc : validate (checkVisibility form) = checkVisibility (validate form)).
  { unfold checkVisibility at 2. rewrite getValues_validate.
    unfold validate, checkVisibility. cbn [fields formName]. f_equal.
    rewrite !map_map. apply map_fields_ext. intros f. reflexivity. }
  split; [exact Hc |].
  intros i f Hf. rewrite validate_lookup, checkVisibility_lookup, Hf. simpl.
  eexists. split; [reflexivity |]. split; simpl; eauto.
Qed.

Lemma validate_checkVisibility_commute_witness :
  let form := addField text "given_name" newForm in
  validate (checkVisibility form) = checkVisibility (validate form) /\
  exists f', fields (validate (checkVisibility form)) !! 0%nat = Some f' /\
             is_Some (errors f') /\ is_Some (visible f').
Proof.
  cbv zeta. split.
  - apply (proj1 (validate_checkVisibility_commute _)).
  - apply (proj2 (validate_checkVisibility_commute _) 0%nat
             (mkField (Some text) (Some "given_name") None None None None None None None)).
    reflexivity.
Defined.

(** X9: the passes do not disturb reads: [getValue] under every name and
    [getValues] give the same result on [validate form] and on
    [checkVisibility form] as on [form]. *)
Theorem passes_keep_values (form : Form) (n : string) :
  getValue n (validate form) = getValue n form /\
  getValues (validate form) = getValues form /\
  getValue n (checkVisibility form) = getValue n form /\
  getValues (checkVisibility form) = getValues form.
Proof.
  assert (Hfind : forall (g : Field -> Field) (l : list Field),
             (forall f, name (g f) = name f) -> (forall f, value (g f) = value f) ->
             R.prop key_value (R.find (R.propEq_name n) (map g l)) =
             R.prop key_value (R.find (R.propEq_name n) l)).
  { intros g l Hn Hv. induction l as [|f rest IH]; simpl; [reflexivity |].
    unfold R.propEq_name at 1. rewrite Hn. fold (R.propEq_name n f).
    destruct (R.propEq_name n f); [simpl; apply Hv | exact IH]. }
  split; [| split; [| split]].
  - rewrite !getValue_find. unfold validate. cbn [fields]. apply Hfind; reflexivity.
  - apply getValues_validate.
  - rewrite !getValue_find. unfold checkVisibility. cbn [fields]. apply Hfind; reflexivity.
  - apply getValues_checkVisibility.
Qed.

(** ** [setValue] and the value map *)

Lemma getValues_fold (nm : string) (l : list Field) :
  getValues (mkForm nm l) = fold_left insertField l ∅.
Proof. reflexivity. Qed.

Lemma fold_insert_absent (k : string) (x : option Value) (l : list Field) :
  Forall (fun g => fieldKey g <> k) l ->
  forall m, fold_left insertField l (<[ k := x ]> m) = <[ k := x ]> (fold_left insertField l m).
Proof.
  induction 1 as [|g rest Hg _ IH]; intros m; simpl.
  - reflexivity.
  - unfold insertField at 2 4. fold (fieldKey g).
    rewrite <- IH. f_equal. apply insert_insert_ne. auto.
Qed.

Lemma fold_insert_overwritten (k : string) (x y : option Value) (l : list Field) :
  Exists (fun g => fieldKey g = k) l ->
  forall m, fold_left insertField l (<[ k := x ]> m) = fold_left insertField l (<[ k := y ]> m).
Proof.
  induction l as [|g rest IH]; intros HE m.
  - inversion HE.
  - simpl. unfold insertField at 2 4. fold (fieldKey g).
    destruct (decide (fieldKey g = k)) as [-> | Hne].
    + rewrite !insert_insert_eq. reflexivity.
    + inversion HE as [? ? Hk | ? ? Hrest]; subst; [congruence |].
      rewrite (insert_insert_ne _ (fieldKey g) k) by exact Hne.
      rewrite (insert_insert_ne _ (fieldKey g) k _ y) by exact Hne.
      apply IH, Hrest.
Qed.

Lemma getValues_middle (nm : string) (l1 l2 : list Field) (f : Field) :
  getValues (mkForm nm (l1 ++ f :: l2)) =
  fold_left insertField l2 (<[ fieldKey f := value f ]> (fold_left insertField l1 ∅)).
Proof. rewrite getValues_fold, fold_left_app. reflexivity. Qed.

(** X10: when exactly one field carries the name [n] ([f], with no field
    named [n] before it and no field stored under the key [n] after it),
    [setValue n v] changes the value map at the key [n] only:
    [getValues (setValue n v form)] is [getValues form] with [n] mapped to
    [v]. *)
Theorem getValues_after_setValue
        (form : Form) (n : string) (v : Value) (l1 l2 : list Field) (f : Field) :
  fields form = l1 ++ f :: l2 ->
  Forall (fun g => name g <> Some n) l1 ->
  name f = Some n ->
  Forall (fun g => fieldKey g <> n) l2 ->
  getValues (setValue n v form) = <[ n := Some v ]> (getValues form) /\
  getValues (setValue n v form) !! n = Some (Some v) /\
  forall k, k <> n -> getValues (setValue n v form) !! k = getValues form !! k.
Proof.
  intros E H1 Hf H2.
  assert (Heq : getValues (setValue n v form) = <[ n := Some v ]> (getValues form)).
  { rewrite (setValue_first form n l1 l2 f E H1 Hf).
    destruct form as [nm l]. cbn [fields formName] in *. subst l.
    rewrite !getValues_middle.
    replace (fieldKey (with_value (Some v) f)) with n
      by (symmetry; apply fieldKey_named; exact Hf).
    replace (fieldKey f) with n by (symmetry; apply fieldKey_named; exact Hf).
    rewrite !fold_insert_absent by exact H2.
    rewrite insert_insert_eq. reflexivity. }
  split; [exact Heq |]. rewrite Heq. split.
  - apply lookup_insert_eq.
  - intros k Hk. apply lookup_insert_ne. auto.
Qed.

Lemma getValues_after_setValue_witness :
  let form := addField text "family_name" (addField text "given_name" newForm) in
  getValues (setValue "given_name" (VString "Max") form) !! "given_name" =
    Some (Some (VString "Max")).
Proof.
  cbv zeta.
  apply (getValues_after_setValue _ "given_name" (VString "Max") []
           [mkField (Some text) (Some "family_name") None None None None None None None]
           (mkField (Some text) (Some "given_name") None None None None None None None)).
  - reflexivity.
  - constructor.
  - reflexivity.
  - repeat constructor. simpl. discriminate.
Defined.

(** X11: when a later field is stored under the same key, [setValue] and
    [getValues] do not meet: [setValue n v] writes the first field named
    [n], [getValues] reports the last one, so the value map is the same
    before and after the write, while [getValue n] returns [v]. *)
Theorem setValue_unseen_by_getValues
        (form : Form) (n : string) (v : Value) (l1 l2 : list Field) (f : Field) :
  fields form = l1 ++ f :: l2 ->
  Forall (fun g => name g <> Some n) l1 ->
  name f = Some n ->
  Exists (fun g => fieldKey g = n) l2 ->
  getValues (setValue n v form) = getValues form /\
  getValue n (setValue n v form) = Some v.
Proof.
  intros E H1 Hf H2. split.
  - rewrite (setValue_first form n l1 l2 f E H1 Hf).
    destruct form as [nm l]. cbn [fields formName] in *. subst l.
    rewrite !getValues_middle.
    replace (fieldKey (with_value (Some v) f)) with n
      by (symmetry; apply fieldKey_named; exact Hf).
    replace (fieldKey f) with n by (symmetry; apply fieldKey_named; exact Hf).
    apply fold_insert_overwritten, H2.
  - rewrite getValue_find, setValue_writeFirst. cbn [fields].
    rewrite find_writeFirst_same by reflexivity.
    rewrite E, find_split; [reflexivity | apply Forall_propEq_name_false, H1
                           | apply propEq_name_true, Hf].
Qed.

Lemma setValue_unseen_by_getValues_witness :
  let a1 := mkField (Some text) (Some "a") (Some (VString "first")) None None None None None None in
  let a2 := mkField (Some text) (Some "a") (Some (VString "second")) None None None None None None in
  let form := mkForm "" [a1; a2] in
  getValues (setValue "a" (VString "new") form) = getValues form /\
  getValue "a" (setValue "a" (VString "new") form) = Some (VString "new") /\
  getValues form !! "a" = Some (Some (VString "second")).
Proof.
  cbv zeta.
  set (a1 := mkField _ (Some "a") (Some (VString "first")) _ _ _ _ _ _).
  set (a2 := mkField _ (Some "a") (Some (VString "second")) _ _ _ _ _ _).
  destruct (setValue_unseen_by_getValues (mkForm "" [a1; a2]) "a" (VString "new")
              [] [a2] a1 eq_refl ltac:(constructor) eq_refl ltac:(left; reflexivity))
    as [H0 H1].
  split; [exact H0 |]. split; [exact H1 | reflexivity].
Defined.

(** X12: [getValue] and [getValues] agree on a name that exactly one field
    carries: the value map holds, under [n], what [getValue n] returns; and
    on a name no field is stored under, both give nothing. *)
Theorem getValue_agrees_with_getValues (form : Form) (n : string) :
  (forall (l1 l2 : list Field) (f : Field),
     fields form = l1 ++ f :: l2 ->
     Forall (fun g => name g <> Some n) l1 ->
     name f = Some n ->
     Forall (fun g => fieldKey g <> n) l2 ->
     getValues form !! n = Some (getValue n form)) /\
  (Forall (fun g => fieldKey g <> n) (fields form) ->
   getValues form !! n = None /\ getValue n form = None).
Proof.
  split.
  - intros l1 l2 f E H1 Hf H2.
    rewrite (getValue_first form n l1 l2 f E H1 Hf).
    destruct form as [nm l]. cbn [fields] in E. subst l.
    rewrite getValues_middle, (fieldKey_named f n Hf).
    rewrite fold_insert_absent by exact H2. apply lookup_insert_eq.
  - intros H. split.
    + rewrite getValues_lookup.
      replace (filter (fun f => fieldKey f = n) (fields form)) with (@nil Field);
        [reflexivity |].
      symmetry. induction H as [|g rest Hg _ IH]; [reflexivity |].
      rewrite filter_cons_False by exact Hg. exact IH.
    + rewrite getValue_find.
      replace (R.find (R.propEq_name n) (fields form)) with (@None Field); [reflexivity |].
      symmetry. apply find_none_Forall.
      eapply Forall_impl; [exact H |]. intros g Hg. apply propEq_name_false.
      intros Hn. apply Hg, fieldKey_named, Hn.
Qed.

Lemma getValue_agrees_with_getValues_witness :
  let form :=
    setValue "given_name" (VString "Max") (addField text "given_name" newForm) in
  getValues form !! "given_name" = Some (getValue "given_name" form) /\
  getValues form !! "family_name" = None /\ getValue "family_name" form = None.
Proof.
  cbv zeta. split.
  - apply (proj1 (getValue_agrees_with_getValues _ "given_name") [] []
             (mkField (Some text) (Some "given_name") (Some (VString "Max"))
                      None None None None None None));
      [reflexivity | constructor | reflexivity | constructor].
  - apply (proj2 (getValue_agrees_with_getValues _ "family_name")).
    repeat constructor. simpl. discriminate.
Defined.

(** ** Adding a field and writing to it *)

Lemma writeFirst_snoc_missing (n : string) (h : Field -> Field) (l : list Field) (g : Field) :
  Forall (fun f => name f <> Some n) l ->
  writeFirst n h (l ++ [g]) = l ++ writeFirst n h [g].
Proof.
  induction 1 as [|f rest Hf _ IH]; simpl.
  - reflexivity.
  - apply propEq_name_false in Hf. rewrite Hf. simpl in IH. rewrite IH. reflexivity.
Qed.

Lemma writeFirst_snoc_found (n : string) (h : Field -> Field) (l : list Field) (g : Field) :
  Exists (fun f => name f = Some n) l ->
  writeFirst n h (l ++ [g]) = writeFirst n h l ++ [g].
Proof.
  induction l as [|f rest IH]; intros HE; simpl.
  - inversion HE.
  - destruct (R.propEq_name n f) eqn:E; [reflexivity |].
    apply propEq_name_false in E.
    inversion HE as [? ? Hn | ? ? Hrest]; subst; [congruence |].
    rewrite IH by exact Hrest. reflexivity.
Qed.

Lemma writeFirst_snoc_other (n : string) (h : Field -> Field) (l : list Field) (g : Field) :
  name g <> Some n ->
  writeFirst n h (l ++ [g]) = writeFirst n h l ++ [g].
Proof.
  intros Hg. induction l as [|f rest IH]; simpl.
  - apply propEq_name_false in Hg. rewrite Hg. reflexivity.
  - destruct (R.propEq_name n f); [reflexivity | rewrite IH; reflexivity].
Qed.

(** X13: the order of [addField] and [setValue]. Under a name [n] no field
    has yet, [setValue n v] after [addField t n] gives the new field
    [{type, name, value}] at the tail and [getValue n] returns [v], while
    [setValue n v] before [addField t n] is lost and the new field has no
    value. Under a name some field already has, the two orders give the
    same form: the write goes to the earlier field and the field added last
    stays without a value. For [m] other than [n], [setValue m v] and
    [addField t n] commute. *)
Theorem addField_and_setValue (form : Form) (t : FieldType) (n : string) (v : Value) :
  (Forall (fun f => name f <> Some n) (fields form) ->
   fields (setValue n v (addField t n form)) =
     fields form ++ [mkField (Some t) (Some n) (Some v) None None None None None None] /\
   getValue n (setValue n v (addField t n form)) = Some v /\
   fields (addField t n (setValue n v form)) =
     fields form ++ [mkField (Some t) (Some n) None None None None None None None] /\
   getValue n (addField t n (setValue n v form)) = None) /\
  (Exists (fun f => name f = Some n) (fields form) ->
   setValue n v (addField t n form) = addField t n (setValue n v form) /\
   last (fields (setValue n v (addField t n form))) =
     Some (mkField (Some t) (Some n) None None None None None None None)) /\
  (forall m, m <> n ->
   setValue m v (addField t n form) = addField t n (setValue m v form)).
Proof.
  split; [| split].
  - intros H.
    assert (E1 : fields (setValue n v (addField t n form)) =
                 fields form ++ [mkField (Some t) (Some n) (Some v)
                                         None None None None None None]).
    { rewrite setValue_writeFirst. cbn [fields addField R.over fieldsLens R.getter R.setter
                                         R.append].
      rewrite writeFirst_snoc_missing by exact H. simpl.
      unfold R.propEq_name. simpl. rewrite bool_decide_eq_true_2 by reflexivity.
      reflexivity. }
    assert (E2 : fields (addField t n (setValue n v form)) =
                 fields form ++ [mkField (Some t) (Some n) None None None None None None None]).
    { rewrite setValue_as_over, over_named_missing by exact H. reflexivity. }
    split; [exact E1 |]. split; [| split; [exact E2 |]].
    + rewrite getValue_find, E1.
      rewrite find_split; [reflexivity | apply Forall_propEq_name_false, H
                          | apply propEq_name_true; reflexivity].
    + rewrite getValue_find, E2.
      rewrite find_split; [reflexivity | apply Forall_propEq_name_false, H
                          | apply propEq_name_true; reflexivity].
  - intros HE.
    assert (E : setValue n v (addField t n form) = addField t n (setValue n v form)).
    { rewrite !setValue_writeFirst.
      cbn [fields formName addField R.over fieldsLens R.getter R.setter R.append].
      rewrite writeFirst_snoc_found by exact HE. reflexivity. }
    split; [exact E |]. rewrite E.
    cbn [fields addField R.over fieldsLens R.getter R.setter R.append].
    apply last_snoc.
  - intros m Hmn. rewrite !setValue_writeFirst.
    cbn [fields formName addField R.over fieldsLens R.getter R.setter R.append].
    rewrite writeFirst_snoc_other by (simpl; congruence). reflexivity.
Qed.

Lemma addField_and_setValue_witness :
  fields (setValue "given_name" (VString "Ben") (addField text "given_name" newForm)) =
    [mkField (Some text) (Some "given_name") (Some (VString "Ben"))
             None None None None None None] /\
  fields (addField text "given_name" (setValue "given_name" (VString "Ben") newForm)) =
    [mkField (Some text) (Some "given_name") None None None None None None None] /\
  setValue "family_name" (VString "Doe") (addField text "given_name" newForm) =
    addField text "given_name" (setValue "family_name" (VString "Doe") newForm).
Proof.
  destruct (addField_and_setValue newForm text "given_name" (VString "Ben"))
    as (Hfresh & _ & _).
  destruct (Hfresh ltac:(constructor)) as (H1 & _ & H2 & _).
  split; [exact H1 |]. split; [exact H2 |].
  apply (proj2 (proj2 (addField_and_setValue newForm text "given_name" (VString "Doe")))).
  discriminate.
Defined.

(** ** The name of the form *)

(** X14: [setName] changes the form's name and nothing else: the fields,
    and so every value read, are as before; the later of two [setName]
    wins; and [setName] commutes with [addField], with [setValue] and with
    both passes. *)
Theorem setName_changes_only_the_name (form : Form) (n : string) :
  formName (setName n form) = n /\
  fields (setName n form) = fields form /\
  getValues (setName n form) = getValues form /\
  (forall m, getValue m (setName n form) = getValue m form) /\
  (forall n', setName n' (setName n form) = setName n' form) /\
  (forall t m, addField t m (setName n form) = setName n (addField t m form)) /\
  (forall m v, setValue m v (setName n form) = setName n (setValue m v form)) /\
  validate (setName n form) = setName n (validate form) /\
  checkVisibility (setName n form) = setName n (checkVisibility form).
Proof. repeat split. Qed.

(** ** Forms built with the exported operations *)

Lemma Forall_writeFirst (P : Field -> Prop) (n : string) (h : Field -> Field)
      (l : list Field) :
  (forall f, P f -> P (h f)) -> Forall P l -> Forall P (writeFirst n h l).
Proof.
  intros Hh. induction 1 as [|f rest Hf Hrest IH]; simpl.
  - constructor.
  - destruct (R.propEq_name n f); constructor; auto.
Qed.

Lemma Forall_map_fields (P : Field -> Prop) (g : Field -> Field) (l : list Field) :
  (forall f, P f -> P (g f)) -> Forall P l -> Forall P (map g l).
Proof.
  intros Hg. induction 1 as [|f rest Hf Hrest IH]; simpl; constructor; auto.
Qed.

Lemma append_not_nil {X} (r : X) (o : option (list X)) : Some (R.append r o) <> Some [].
Proof. rewrite append_rulesOf. intros [= H]. destruct (rulesOf o); discriminate. Qed.

Lemma Built_wellFormed (form : Form) :
  Built form -> Forall wellFormedField (fields form).
Proof.
  induction 1 as [| n form _ IH | t n form _ IH | n v form _ IH | n os form _ IH
                  | n r form _ IH | form _ IH | n r form _ IH | form _ IH | n b form _ IH].
  - constructor.
  - exact IH.
  - cbn [fields addField R.over fieldsLens R.getter R.setter R.append].
    apply Forall_app. split; [exact IH |]. constructor; [| constructor].
    unfold wellFormedField. simpl. repeat split; eauto; discriminate.
  - rewrite setValue_writeFirst. cbn [fields].
    apply Forall_writeFirst; [| exact IH]. intros f Hf. exact Hf.
  - rewrite setFieldOptions_writeFirst. cbn [fields].
    apply Forall_writeFirst; [| exact IH]. intros f Hf. exact Hf.
  - rewrite addValidationRule_writeFirst. cbn [fields].
    apply Forall_writeFirst; [| exact IH]. intros f (Ht & Hn & _ & Hc).
    unfold wellFormedField. simpl. repeat split; auto. apply append_not_nil.
  - unfold validate. cbn [fields].
    apply Forall_map_fields; [| exact IH]. intros f Hf. exact Hf.
  - rewrite addConditionalRule_writeFirst. cbn [fields].
    apply Forall_writeFirst; [| exact IH]. intros f (Ht & Hn & Hv & _).
    unfold wellFormedField. simpl. repeat split; auto. apply append_not_nil.
  - unfold checkVisibility. cbn [fields].
    apply Forall_map_fields; [| exact IH]. intros f Hf. exact Hf.
  - rewrite setDefaultVisibility_writeFirst. cbn [fields].
    apply Forall_writeFirst; [| exact IH]. intros f Hf. exact Hf.
Qed.

(** X15: in every form built from [newForm] with the exported operations
    ([setName], [addField], the five writes, the two passes), every field
    has a type and a name, and a [validationRules] or [conditionalRules]
    array that is present holds at least one rule; the keys of [getValues]
    are then exactly the names of the fields. *)
Theorem built_forms_are_well_formed (form : Form) :
  Built form ->
  Forall (fun f => is_Some (type f) /\ is_Some (name f) /\
                   validationRules f <> Some [] /\ conditionalRules f <> Some [])
         (fields form) /\
  forall k : string,
    k ∈ dom (getValues form) <-> exists f, f ∈ fields form /\ name f = Some k.
Proof.
  intros HB. pose proof (Built_wellFormed form HB) as HW.
  split; [exact HW |].
  intros k. rewrite getValues_dom. split.
  - intros (f & Hin & Hk). exists f. split; [exact Hin |].
    rewrite Forall_forall in HW. destruct (HW f Hin) as (_ & [n Hn] & _).
    rewrite <- Hk, (fieldKey_named f n Hn). exact Hn.
  - intros (f & Hin & Hn). exists f. split; [exact Hin | apply fieldKey_named, Hn].
Qed.

Lemma built_forms_are_well_formed_witness :
  let form :=
    validate (addValidationRule "email" isEmail (addField text "email" newForm)) in
  Forall (fun f => is_Some (type f) /\ is_Some (name f) /\
                   validationRules f <> Some [] /\ conditionalRules f <> Some [])
         (fields form).
Proof.
  cbv zeta.
  apply (proj1 (built_forms_are_well_formed _
                  (Built_validate _ (Built_addValidationRule "email" isEmail _
                     (Built_addField text "email" _ Built_newForm))))).
Defined.

(** X16: on every form built from [newForm] with the exported operations,
    [checkVisibility] sets [visible] to [true] for a field with no
    conditional rules and otherwise to whether at least one of its
    conditional rules returns [true] on the value map (a present but empty
    [conditionalRules], the one case where the two differ, does not occur
    in a built form). *)
Theorem checkVisibility_on_built_forms (form : Form) :
  Built form ->
  map visible (fields (checkVisibility form)) =
  map (fun f => Some (spec_visible f (getValues form))) (fields form).
Proof.
  intros HB. pose proof (Built_wellFormed form HB) as HW.
  rewrite visible_checkVisibility. apply Forall_fmap_ext_1.
  eapply Forall_impl; [exact HW |].
  intros f (_ & _ & _ & Hc). unfold spec_visible. f_equal.
  destruct (conditionalRules f) as [[|rule rest]|]; simpl; [congruence | reflexivity ..].
Qed.

Lemma checkVisibility_on_built_forms_witness :
  let form := addField text "favourite_colour" newForm in
  map visible (fields (checkVisibility form)) = [Some true].
Proof.
  cbv zeta.
  rewrite (checkVisibility_on_built_forms _ (Built_addField text "favourite_colour" _
                                               Built_newForm)).
  reflexivity.
Defined.

(** X17: no operation removes, renames or reorders fields: on every form
    and for every name written, each of the five writes and each pass
    returns a form whose fields have the same names in the same order
    (hence as many fields), and [addField] adds one name at the end. *)
Theorem names_are_kept_in_order (form : Form) :
  (forall n v, map name (fields (setValue n v form)) = map name (fields form)) /\
  (forall n os, map name (fields (setFieldOptions n os form)) = map name (fields form)) /\
  (forall n b, map name (fields (setDefaultVisibility n b form)) = map name (fields form)) /\
  (forall n r, map name (fields (addValidationRule n r form)) = map name (fields form)) /\
  (forall n r, map name (fields (addConditionalRule n r form)) = map name (fields form)) /\
  map name (fields (validate form)) = map name (fields form) /\
  map name (fields (checkVisibility form)) = map name (fields form) /\
  (forall t n, map name (fields (addField t n form)) = map name (fields form) ++ [Some n]).
Proof.
  split; [| split; [| split; [| split; [| split; [| split; [| split]]]]]].
  - intros n v. rewrite setValue_writeFirst. cbn [fields].
    apply map_name_writeFirst. reflexivity.
  - intros n os. rewrite setFieldOptions_writeFirst. cbn [fields].
    apply map_name_writeFirst. reflexivity.
  - intros n b. rewrite setDefaultVisibility_writeFirst. cbn [fields].
    apply map_name_writeFirst. reflexivity.
  - intros n r. rewrite addValidationRule_writeFirst. cbn [fields].
    apply map_name_writeFirst. reflexivity.
  - intros n r. rewrite addConditionalRule_writeFirst. cbn [fields].
    apply map_name_writeFirst. reflexivity.
  - unfold validate. cbn [fields]. rewrite map_map. reflexivity.
  - unfold checkVisibility. cbn [fields]. rewrite map_map. reflexivity.
  - intros t n. cbn [fields addField R.over fieldsLens R.getter R.setter R.append].
    rewrite map_app. reflexivity.
Qed.

(** ** The strings [isEmail] accepts *)

Lemma allChars_ext (p q : ascii -> bool) (s : string) :
  (forall ch, p ch = q ch) -> allChars p s = allChars q s.
Proof.
  intros H. induction s as [|ch rest IH]; simpl; [reflexivity |].
  rewrite H, IH. reflexivity.
Qed.

Lemma allChars_append (p : ascii -> bool) (s1 s2 : string) :
  allChars p (String.append s1 s2) = allChars p s1 && allChars p s2.
Proof.
  induction s1 as [|ch rest IH]; simpl; [reflexivity |].
  rewrite IH. apply andb_assoc.
Qed.

Lemma length_append (s1 s2 : string) :
  String.length (String.append s1 s2) = (String.length s1 + String.length s2)%nat.
Proof.
  induction s1 as [|ch rest IH]; [reflexivity |].
  change (String.append (String ch rest) s2) with (String ch (String.append rest s2)).
  cbn [String.length]. rewrite IH. reflexivity.
Qed.

Section Language.
Variable ic : bool.

Lemma InLang_Chars_inv (cls : list ClassAtom) (s : string) :
  InLang ic (Chars cls) s ->
  exists ch, s = String ch EmptyString /\ classMatches ic cls ch = true.
Proof. intros H. inversion H; subst. eauto. Qed.

Lemma InLang_Seq_inv (r1 r2 : RegExp) (s : string) :
  InLang ic (Seq r1 r2) s ->
  exists s1 s2, s = String.append s1 s2 /\ InLang ic r1 s1 /\ InLang ic r2 s2.
Proof. intros H. inversion H; subst. eauto. Qed.

Lemma InLang_Star_Chars (cls : list ClassAtom) (s : string) :
  InLang ic (Star (Chars cls)) s <-> allChars (classMatches ic cls) s = true.
Proof.
  split.
  - intros H. remember (Star (Chars cls)) as r eqn:Er.
    induction H as [| | | | | r0 | r0 s1 s2 H1 _ H2 IH2]; try discriminate.
    + reflexivity.
    + injection Er as ->.
      destruct (InLang_Chars_inv _ _ H1) as (ch & -> & Hc).
      rewrite allChars_append. cbn [allChars]. rewrite Hc. apply IH2. reflexivity.
  - induction s as [|ch rest IH]; cbn [allChars]; intros H.
    + constructor.
    + apply andb_prop in H. destruct H as [Hc Hrest].
      change (String ch rest) with (String.append (String ch EmptyString) rest).
      constructor; [constructor; exact Hc | apply IH, Hrest].
Qed.

Lemma InLang_Plus_Chars (cls : list ClassAtom) (s : string) :
  InLang ic (Plus (Chars cls)) s <->
  s <> EmptyString /\ allChars (classMatches ic cls) s = true.
Proof.
  unfold Plus. split.
  - intros H. destruct (InLang_Seq_inv _ _ _ H) as (s1 & s2 & -> & H1 & H2).
    destruct (InLang_Chars_inv _ _ H1) as (ch & -> & Hc).
    apply InLang_Star_Chars in H2. rewrite allChars_append. cbn [allChars].
    rewrite Hc, H2. split; [discriminate | reflexivity].
  - intros [Hne H]. destruct s as [|ch rest]; [congruence |].
    cbn [allChars] in H. apply andb_prop in H. destruct H as [Hc Hrest].
    change (String ch rest) with (String.append (String ch EmptyString) rest).
    constructor; [constructor; exact Hc | apply InLang_Star_Chars, Hrest].
Qed.

Lemma InLang_AtLeast2_Chars (cls : list ClassAtom) (s : string) :
  InLang ic (AtLeast 2 (Chars cls)) s <->
  (2 <= String.length s)%nat /\ allChars (classMatches ic cls) s = true.
Proof.
  cbn [AtLeast]. split.
  - intros H. destruct (InLang_Seq_inv _ _ _ H) as (s1 & s2 & -> & H1 & H2).
    destruct (InLang_Seq_inv _ _ _ H2) as (s3 & s4 & -> & H3 & H4).
    destruct (InLang_Chars_inv _ _ H1) as (c1 & -> & Hc1).
    destruct (InLang_Chars_inv _ _ H3) as (c2 & -> & Hc2).
    apply InLang_Star_Chars in H4. rewrite !allChars_append, !length_append.
    cbn [allChars String.length]. rewrite Hc1, Hc2, H4. split; [lia | reflexivity].
  - intros [Hlen H]. destruct s as [|c1 [|c2 rest]]; simpl in Hlen; try lia.
    cbn [allChars] in H. apply andb_prop in H. destruct H as [Hc1 H].
    apply andb_prop in H. destruct H as [Hc2 Hrest].
    change (String c1 (String c2 rest))
      with (String.append (String c1 EmptyString)
              (String.append (String c2 EmptyString) rest)).
    constructor; [constructor; exact Hc1 |].
    constructor; [constructor; exact Hc2 | apply InLang_Star_Chars, Hrest].
Qed.

Lemma InLang_single (c : ascii) (s : string) :
  (forall ch, classMatches ic [ClassChar c] ch = Ascii.eqb ch c) ->
  InLang ic (Chars [ClassChar c]) s <-> s = String c EmptyString.
Proof.
  intros Hc. split.
  - intros H. destruct (InLang_Chars_inv _ _ H) as (ch & -> & Hm).
    rewrite Hc in Hm. apply Ascii.eqb_eq in Hm. subst. reflexivity.
  - intros ->. constructor. rewrite Hc. apply Ascii.eqb_refl.
Qed.
End Language.

Lemma class_local_chars (ch : ascii) : classMatches true class_local ch = isLocalChar ch.
Proof. by_cases_on_character ch. Qed.

Lemma class_domain_chars (ch : ascii) : classMatches true class_domain ch = isDomainChar ch.
Proof. by_cases_on_character ch. Qed.

Lemma class_tld_chars (ch : ascii) : classMatches true class_tld ch = isLetter ch.
Proof. by_cases_on_character ch. Qed.

Lemma class_at_char (ch : ascii) :
  classMatches true [ClassChar "@"%char] ch = Ascii.eqb ch "@"%char.
Proof. by_cases_on_character ch. Qed.

Lemma class_dot_char (ch : ascii) :
  classMatches true [ClassChar "."%char] ch = Ascii.eqb ch "."%char.
Proof. by_cases_on_character ch. Qed.

(** The shape of an accepted string: user, ["@"], host, ["."], top-level
    domain. *)
Lemma isEmail_accepts_parts (s : string) :
  isEmail (Some (VString s)) = None <->
  exists user host tld : string,
    s = String.append user (String.append "@" (String.append host (String.append "." tld))) /\
    user <> EmptyString /\ allChars isLocalChar user = true /\
    host <> EmptyString /\ allChars isDomainChar host = true /\
    (2 <= String.length tld)%nat /\ allChars isLetter tld = true.
Proof.
  assert (Hiff : isEmail (Some (VString s)) = None <-> InLang true (body EMAIL_REGEX) s).
  { unfold isEmail. simpl ToString. rewrite <- (matches_InLang true s (body EMAIL_REGEX)).
    unfold test. cbn [ignoreCase EMAIL_REGEX].
    destruct (matches true _ s); split; intros H; (reflexivity || discriminate || auto). }
  rewrite Hiff. unfold EMAIL_REGEX. cbn [body]. split.
  - intros H.
    destruct (InLang_Seq_inv _ _ _ _ H) as (user & s1 & -> & Hu & H1).
    destruct (InLang_Seq_inv _ _ _ _ H1) as (at_ & s2 & -> & Ha & H2).
    destruct (InLang_Seq_inv _ _ _ _ H2) as (host & s3 & -> & Hh & H3).
    destruct (InLang_Seq_inv _ _ _ _ H3) as (dot & tld & -> & Hd & Ht).
    apply InLang_Plus_Chars in Hu. destruct Hu as [Hu1 Hu2].
    apply InLang_Plus_Chars in Hh. destruct Hh as [Hh1 Hh2].
    apply InLang_AtLeast2_Chars in Ht. destruct Ht as [Ht1 Ht2].
    apply (InLang_single true _ _ class_at_char) in Ha.
    apply (InLang_single true _ _ class_dot_char) in Hd. subst at_ dot.
    exists user, host, tld. split; [reflexivity |].
    rewrite <- (allChars_ext _ _ user class_local_chars).
    rewrite <- (allChars_ext _ _ host class_domain_chars).
    rewrite <- (allChars_ext _ _ tld class_tld_chars). auto 10.
  - intros (user & host & tld & -> & Hu1 & Hu2 & Hh1 & Hh2 & Ht1 & Ht2).
    rewrite <- (allChars_ext _ _ user class_local_chars) in Hu2.
    rewrite <- (allChars_ext _ _ host class_domain_chars) in Hh2.
    rewrite <- (allChars_ext _ _ tld class_tld_chars) in Ht2.
    constructor; [apply InLang_Plus_Chars; auto |].
    constructor; [apply (InLang_single true _ _ class_at_char); reflexivity |].
    constructor; [apply InLang_Plus_Chars; auto |].
    constructor; [apply (InLang_single true _ _ class_dot_char); reflexivity |].
    apply InLang_AtLeast2_Chars; auto.
Qed.

(** X18: [isEmail] accepts a string (returns nothing) exactly when the
    string is a user part, ["@"], a host part, ["."] and a top-level
    domain, where the user part is one or more letters, digits or
    [. _ % + -], the host part is one or more letters, digits or [. -], and
    the top-level domain is two or more letters; every other string gets
    ["Not a valid email"]. *)
Theorem isEmail_accepts_exactly (s : string) :
  (isEmail (Some (VString s)) = None <->
   exists user host tld : string,
     s = String.append user
           (String.append "@" (String.append host (String.append "." tld))) /\
     user <> EmptyString /\ allChars isLocalChar user = true /\
     host <> EmptyString /\ allChars isDomainChar host = true /\
     (2 <= String.length tld)%nat /\ allChars isLetter tld = true) /\
  (isEmail (Some (VString s)) = None \/
   isEmail (Some (VString s)) = Some "Not a valid email").
Proof.
  split; [apply isEmail_accepts_parts |].
  unfold isEmail. destruct (test EMAIL_REGEX _); auto.
Qed.

Lemma isEmail_accepts_exactly_witness :
  isEmail (Some (VString "max.musterman+forms@mail.example.org")) = None.
Proof.
  apply (proj1 (isEmail_accepts_exactly _)).
  exists "max.musterman+forms", "mail.example", "org".
  repeat split; try discriminate; simpl; lia.
Defined.

Lemma countChar_append (c : ascii) (s1 s2 : string) :
  countChar c (String.append s1 s2) = (countChar c s1 + countChar c s2)%nat.
Proof.
  induction s1 as [|ch rest IH]; [reflexivity |].
  change (String.append (String ch rest) s2) with (String ch (String.append rest s2)).
  cbn [countChar]. rewrite IH. lia.
Qed.

Lemma countChar_excluded (p : ascii -> bool) (c : ascii) (s : string) :
  p c = false -> allChars p s = true -> countChar c s = 0%nat.
Proof.
  intros Hc. induction s as [|ch rest IH]; cbn [allChars countChar]; intros H.
  - reflexivity.
  - apply andb_prop in H. destruct H as [Hch Hrest].
    destruct (Ascii.eqb_spec ch c) as [-> | _]; [congruence |].
    rewrite IH by exact Hrest. reflexivity.
Qed.

Lemma allChars_weaken (p q : ascii -> bool) (s : string) :
  (forall ch, p ch = true -> q ch = true) -> allChars p s = true -> allChars q s = true.
Proof.
  intros H. induction s as [|ch rest IH]; cbn [allChars]; intros Hs.
  - reflexivity.
  - apply andb_prop in Hs. destruct Hs as [Hch Hrest].
    rewrite (H ch Hch), (IH Hrest). reflexivity.
Qed.

Lemma isLetter_local (ch : ascii) : isLetter ch = true -> isLocalChar ch = true.
Proof. unfold isLocalChar. intros ->. reflexivity. Qed.

Lemma isDomainChar_local (ch : ascii) : isDomainChar ch = true -> isLocalChar ch = true.
Proof. destruct ch as [[] [] [] [] [] [] [] []]; vm_compute; auto. Qed.

(** X19: a string [isEmail] accepts has at least six characters, holds
    exactly one ["@"], and consists of letters, digits and the characters
    [. _ % + - @] only (no blank, no other punctuation, no character
    outside ASCII). *)
Theorem isEmail_accepted_strings (s : string) :
  isEmail (Some (VString s)) = None ->
  (6 <= String.length s)%nat /\
  countChar "@" s = 1%nat /\
  allChars (fun ch => isLocalChar ch || Ascii.eqb ch "@") s = true.
Proof.
  intros H. apply isEmail_accepts_parts in H.
  destruct H as (user & host & tld & -> & Hu1 & Hu2 & Hh1 & Hh2 & Ht1 & Ht2).
  split; [| split].
  - rewrite !length_append. cbn [String.length].
    destruct user; [congruence |]. destruct host; [congruence |].
    cbn [String.length]. lia.
  - rewrite !countChar_append.
    rewrite (countChar_excluded isLocalChar "@" user eq_refl Hu2).
    rewrite (countChar_excluded isDomainChar "@" host eq_refl Hh2).
    rewrite (countChar_excluded isLetter "@" tld eq_refl Ht2).
    reflexivity.
  - rewrite !allChars_append.
    assert (Hw : forall ch, isLocalChar ch = true ->
                            isLocalChar ch || Ascii.eqb ch "@" = true)
      by (intros ch ->; reflexivity).
    rewrite (allChars_weaken _ _ user Hw Hu2).
    rewrite (allChars_weaken _ _ host
               (fun ch Hc => Hw ch (isDomainChar_local ch Hc)) Hh2).
    rewrite (allChars_weaken _ _ tld (fun ch Hc => Hw ch (isLetter_local ch Hc)) Ht2).
    reflexivity.
Qed.

Lemma isEmail_accepted_strings_witness :
  (6 <= String.length "ben@example.com")%nat /\
  countChar "@" "ben@example.com" = 1%nat.
Proof.
  destruct (isEmail_accepted_strings "ben@example.com") as (H1 & H2 & _).
  - vm_compute. reflexivity.
  - split; [exact H1 | exact H2].
Defined.

Lemma toUpperCase_idempotent (ch : ascii) : toUpperCase (toUpperCase ch) = toUpperCase ch.
Proof. by_cases_on_character ch. Qed.

Lemma classMatches_toUpperCase (cls : list ClassAtom) (ch : ascii) :
  classMatches true cls (toUpperCase ch) = classMatches true cls ch.
Proof.
  unfold classMatches. cbn [Canonicalize]. rewrite toUpperCase_idempotent. reflexivity.
Qed.

Lemma deriv_toUpperCase (ch : ascii) (r : RegExp) :
  deriv true (toUpperCase ch) r = deriv true ch r.
Proof.
  induction r as [| | cls | r1 IH1 r2 IH2 | r1 IH1 r2 IH2 | r IH]; cbn [deriv].
  - reflexivity.
  - reflexivity.
  - rewrite classMatches_toUpperCase. reflexivity.
  - rewrite IH1, IH2. reflexivity.
  - rewrite IH1, IH2. reflexivity.
  - rewrite IH. reflexivity.
Qed.

Lemma asciiUpper_toUpperCase (ch : ascii) : asciiUpper ch = toUpperCase ch.
Proof. reflexivity. Qed.

Lemma matches_asciiUpperString (s : string) :
  forall r, matches true r (asciiUpperString s) = matches true r s.
Proof.
  induction s as [|ch rest IH]; intros r; cbn [asciiUpperString matches].
  - reflexivity.
  - rewrite asciiUpper_toUpperCase, deriv_toUpperCase. apply IH.
Qed.

(** X20: [isEmail] does not look at the case of ASCII letters: two strings
    that are equal once each of the letters [a]..[z] is replaced by the
    corresponding letter [A]..[Z] (every other code unit compared as it
    is) get the same answer; in particular a string gets the same answer
    as the string with its letters [a]..[z] replaced by [A]..[Z]. Nothing
    is said of characters outside ASCII, whose upper-case form may be an
    ASCII letter: [isEmail] rejects every string that holds one. *)
Theorem isEmail_ignores_ascii_case (s1 s2 : string) :
  asciiUpperString s1 = asciiUpperString s2 ->
  isEmail (Some (VString s1)) = isEmail (Some (VString s2)) /\
  isEmail (Some (VString (asciiUpperString s1))) = isEmail (Some (VString s1)).
Proof.
  intros H.
  assert (Hu : forall s, test EMAIL_REGEX (asciiUpperString s) = test EMAIL_REGEX s)
    by (intros s; apply matches_asciiUpperString).
  unfold isEmail. cbn [ToString]. split.
  - rewrite <- (Hu s1), <- (Hu s2), H. reflexivity.
  - rewrite Hu. reflexivity.
Qed.

Lemma isEmail_ignores_ascii_case_witness :
  asciiUpperString "Ben@Example.COM" = asciiUpperString "bEN@eXAMPLE.com" /\
  isEmail (Some (VString "Ben@Example.COM")) = isEmail (Some (VString "bEN@eXAMPLE.com")).
Proof.
  split; [reflexivity |].
  apply (proj1 (isEmail_ignores_ascii_case "Ben@Example.COM" "bEN@eXAMPLE.com" eq_refl)).
Defined.
